(** * Vigenere Lab: the analysis engine of [src/App.tsx]

    A shallow embedding of the pure functions of the Vigenere laboratory
    (index of coincidence, column splitting, Kasiski repeats and factor votes,
    chi-square scoring, working key length, partial decoding) and the
    properties its specification states about them.

    Conventions of the embedding.
    - A JavaScript string is the list of its UTF-16 code units ([Z]); a
      [for (const ch of s)] loop walks [codePoints s].
    - A JavaScript number that holds an index, a length, a count or a shift is
      an integer ([Z] or [nat]); such values stay below 2^53, where binary64
      arithmetic on them is exact. Every other number is a binary64 float
      ([PrimFloat.float]), with the kernel's IEEE 754 operations; a number
      rounded for display, [Number(x.toFixed(d))], is kept as the decimal it
      denotes ([fixed]).
    - A value that may be missing is an [option]: [None] is [null] for a
      pin or a key slot, and [undefined] for an index past the end of an
      array. *)

From Stdlib Require Import ZArith Floats Lia.
From Stdlib Require Import Strings.String Strings.Ascii.
From stdpp Require Import base list sorting gmap.

Set Warnings "-inexact-float".
Open Scope Z_scope.

(** ** Strings *)

Abbreviation jsstring := (list Z).

(** A string literal of the development, as code units. *)
Definition str (s : string) : jsstring :=
  (λ a : ascii, Z.of_N (N_of_ascii a)) <$> list_ascii_of_string s.

Definition isUpperAZ (c : Z) : bool := (65 <=? c) && (c <=? 90).
Definition isLowerAZ (c : Z) : bool := (97 <=? c) && (c <=? 122).

(** [/[A-Za-z]/] on one code unit. *)
Definition isLetter (c : Z) : bool := isUpperAZ c || isLowerAZ c.

Definition isHighSurrogate (c : Z) : bool := (55296 <=? c) && (c <=? 56319).
Definition isLowSurrogate (c : Z) : bool := (56320 <=? c) && (c <=? 57343).

(** The string iterator: one element per code point, a surrogate pair being
    one element of two code units. *)
Fixpoint codePoints (s : jsstring) : list jsstring :=
  match s with
  | [] => []
  | c :: rest =>
      match rest with
      | d :: rest' =>
          if isHighSurrogate c && isLowSurrogate d
          then [c; d] :: codePoints rest'
          else [c] :: codePoints rest
      | [] => [[c]]
      end
  end.

(** [ch.charCodeAt(0)] of a non-empty string. *)
Definition charCode0 (ch : jsstring) : Z := default 0 (head ch).

(** [/[A-Za-z]/.test(ch)]: some code unit of [ch] is an ASCII letter. *)
Definition testLetter (ch : jsstring) : bool := existsb isLetter ch.

(** [toUpperCase] on the code unit of an ASCII letter, the only characters
    the decoder applies it to. *)
Definition upperLetter (c : Z) : Z := if isLowerAZ c then c - 32 else c.

(** [String.fromCharCode(n)] for an integer [n]: the code unit [n mod 2^16]. *)
Definition fromCharCode (n : Z) : Z := n mod 65536.

(** The canonical stream of the analysers: upper-case letters only. *)
Definition canonical (s : jsstring) : Prop := Forall (λ c, 65 <= c <= 90) s.

(** ** Numbers *)

(** An integer below 2^63 as a number (exact below 2^53). *)
Definition ofZ (z : Z) : float :=
  if z <? 0 then PrimFloat.opp (PrimFloat.of_uint63 (Uint63.of_Z (- z)))
  else PrimFloat.of_uint63 (Uint63.of_Z z).

(** [E || 1]: the right operand replaces a falsy number, that is 0, -0 or NaN. *)
Definition orOne (E : float) : float :=
  if PrimFloat.eqb E 0 || negb (PrimFloat.eqb E E) then 1%float else E.

(** [Number(x.toFixed(d))] is the binary64 nearest to [n / 10^d], where [n] is
    the integer nearest to [x * 10^d] (a tie goes away from zero). Distinct
    [n] that arise give distinct numbers in the same order, so the result is
    kept as [n]; NaN and the infinities pass through [toFixed] unchanged. *)
Inductive fixed : Type :=
  | FNaN
  | FInf (neg : bool)
  | Fix (n : Z).

Definition toFixed (digits : Z) (x : float) : fixed :=
  match Prim2SF x with
  | S754_nan => FNaN
  | S754_infinity neg => FInf neg
  | S754_zero _ => Fix 0
  | S754_finite neg m e =>
      let a := Z.pos m * 10 ^ digits in
      let n := if 0 <=? e then a * 2 ^ e
               else (2 * a + 2 ^ (- e)) / 2 ^ (- e + 1) in
      Fix (if neg then - n else n)
  end.

Global Instance fixed_eq_dec : EqDecision fixed.
Proof. solve_decision. Defined.

(** [a < b] on such numbers. *)
Definition fixed_ltb (a b : fixed) : bool :=
  match a, b with
  | Fix x, Fix y => x <? y
  | FInf true, Fix _ => true
  | FInf true, FInf false => true
  | Fix _, FInf false => true
  | _, _ => false
  end.

(** The sign of [a - b] on such numbers; a NaN difference counts as zero, as
    [Array.prototype.sort] reads it. *)
Definition fixed_sub_sign (a b : fixed) : comparison :=
  match a, b with
  | Fix x, Fix y => x - y ?= 0
  | FNaN, _ | _, FNaN => Eq
  | FInf s, FInf t => if Bool.eqb s t then Eq else if s then Lt else Gt
  | FInf s, Fix _ => if s then Lt else Gt
  | Fix _, FInf t => if t then Gt else Lt
  end.

(** ** Arrays of counters *)

(** A cell of a number array: [Some n] is the integer [n]; [None] is a hole,
    [undefined] or NaN, all of which are NaN in arithmetic. *)
Abbreviation cells := (list (option Z)).

(** [arr[idx]++]. A negative [idx] names an ordinary property and leaves the
    elements alone; an [idx] past the end extends the array with holes and
    stores [undefined + 1], which is NaN. *)
Definition jsIncr (idx : Z) (arr : cells) : cells :=
  if idx <? 0 then arr
  else
    let i := Z.to_nat idx in
    if (i <? length arr)%nat then alter (fmap Z.succ) i arr
    else arr ++ replicate (i - length arr)%nat None ++ [None].

Definition cellNum (c : option Z) : float :=
  match c with
  | Some n => ofZ n
  | None => PrimFloat.nan
  end.

(** ** [Array.prototype.sort]

    The comparator's result is kept as its sign: [Lt] when negative (the
    first argument goes first), [Gt] when positive, [Eq] when zero. The sort
    is stable (ECMAScript 2019), so its result is the one insertion computes. *)
Fixpoint insertBy {A} (cmp : A → A → comparison) (x : A) (l : list A) : list A :=
  match l with
  | [] => [x]
  | y :: l' =>
      match cmp x y with
      | Gt => y :: insertBy cmp x l'
      | _ => x :: l
      end
  end.

Definition sortBy {A} (cmp : A → A → comparison) (l : list A) : list A :=
  foldr (insertBy cmp) [] l.

(** ** The source functions *)

(** English letter frequencies (A..Z). *)
Definition ENG : list float :=
  [ 0.08167; 0.01492; 0.02782; 0.04253; 0.12702; 0.02228; 0.02015; 0.06094;
    0.06966; 0.00153; 0.00772; 0.04025; 0.02406; 0.06749; 0.07507; 0.01929;
    0.00095; 0.05987; 0.06327; 0.09056; 0.02758; 0.00978; 0.0236; 0.0015;
    0.01974; 0.00074 ]%float.

(** [ENG[i]] for [i] in 0..25. *)
Definition ENGat (i : Z) : float := default PrimFloat.nan (ENG !! Z.to_nat i).

(** [ioc(s)] *)
Definition ioc (s : jsstring) : float :=
  if (length s <? 2)%nat then 0%float
  else
    let c := fold_left (λ c u, jsIncr (u - 65) c) s (replicate 26 (Some 0)) in
    let N := ofZ (Z.of_nat (length s)) in
    let num := fold_left (λ num x, num + cellNum x * (cellNum x - 1))%float
                 c 0%float in
    (num / (N * (N - 1)))%float.

(** [splitColumns(s, k)]: the array of [k] empty columns, then the loop
    [cols[i % k] += s[i]]; [i] is the index of the next character. *)
Fixpoint splitLoop (k i : nat) (s : jsstring) (cols : list jsstring) : list jsstring :=
  match s with
  | [] => cols
  | c :: s' => splitLoop k (S i) s' (alter (λ col, col ++ [c]) (i mod k)%nat cols)
  end.

Definition splitColumns (s : jsstring) (k : nat) : list jsstring :=
  splitLoop k 0 s (replicate k []).

(** [s.slice(i, i + n)] *)
Definition slice (s : jsstring) (i n : nat) : jsstring := take n (drop i s).

Record NGramOccurrence := { gram : jsstring; positions : list nat }.

(** [(map[g] ||= []).push(i)] on an object whose keys are enumerated in the
    order of their creation: the keys of [findRepeats] are strings of upper-case
    letters, never array indices and never names of [Object.prototype]. *)
Fixpoint pushPos (g : jsstring) (i : nat) (map : list (jsstring * list nat))
  : list (jsstring * list nat) :=
  match map with
  | [] => [(g, [i])]
  | e :: rest =>
      if decide (e.1 = g) then (e.1, e.2 ++ [i]) :: rest
      else e :: pushPos g i rest
  end.

(** The object built by the loop over [i = 0 .. s.length - n], which has
    [s.length + 1 - n] rounds, and none when [n] exceeds the length. *)
Definition gramMap (s : jsstring) (n : nat) : list (jsstring * list nat) :=
  fold_left (λ map i, pushPos (slice s i n) i map)
    (seq 0 (S (length s) - n)) [].

(** [findRepeats(s, n)] *)
Definition findRepeats (s : jsstring) (n : nat) : list NGramOccurrence :=
  (λ e, {| gram := e.1; positions := e.2 |}) <$>
    sortBy (λ a b : jsstring * list nat,
              Z.of_nat (length b.2) - Z.of_nat (length a.2) ?= 0)
      (filter (λ e, (2 <= length e.2)%nat) (gramMap s n)).

(** [factorVotes(distances, limit)]: [voteLoop] is the inner loop over the
    factors [f = 2 .. min(limit, d)] of one distance. *)
Definition voteLoop (d : Z) (limit : Z) (votes : gmap Z Z) : gmap Z Z :=
  fold_left
    (λ votes f,
       if decide (Z.rem d f = 0) then <[f := default 0 (votes !! f) + 1]> votes
       else votes)
    (seqZ 2 (Z.min limit d - 1)) votes.

Definition factorVotes (distances : list Z) (limit : Z) : gmap Z Z :=
  fold_left (λ votes d, voteLoop d limit votes) distances ∅.

(** [chiForShift(col, k)]: [chiTerm] is one summand,
    [(O - E) * (O - E) / divisor]. *)
Definition chiTerm (E : float) (O : float) (divisor : float) : float :=
  ((O - E) * (O - E) / divisor)%float.

Definition chiForShift (col : jsstring) (k : Z) : float :=
  let N := Z.of_nat (length col) in
  if N =? 0 then 1e9%float
  else
    let freq :=
      fold_left (λ freq ch, jsIncr (Z.rem (charCode0 ch - 65 - k + 26) 26) freq)
        (codePoints col) (replicate 26 (Some 0)) in
    fold_left
      (λ chi i,
         let E := (ENGat i * ofZ N)%float in
         let O := cellNum (default None (freq !! Z.to_nat i)) in
         (chi + chiTerm E O (orOne E))%float)
      (seqZ 0 26) 0%float.

(** The placeholder of an unknown letter, the middle dot U+00B7. *)
Definition placeholder : Z := 183.

(** [decodePartial(original, keyShifts, k)]: the loop state is the letter
    counter [j] and the output [out]; [decodeLetter] is what a letter in
    column [j % k] becomes. *)

Definition decodeLetter (keyShifts : list (option Z)) (k : Z) (j : nat) (c : Z) : Z :=
  match keyShifts !! (j mod Z.to_nat k)%nat with
  | Some (Some s) => fromCharCode (Z.rem (upperLetter c - 65 - s + 26) 26 + 65)
  | _ => placeholder
  end.

Definition decodeStep (keyShifts : list (option Z)) (k : Z)
    (st : nat * jsstring) (ch : jsstring) : nat * jsstring :=
  if testLetter ch
  then (S st.1, st.2 ++ [decodeLetter keyShifts k st.1 (charCode0 ch)])
  else (st.1, st.2 ++ ch).

Definition decodePartial (original : jsstring) (keyShifts : list (option Z)) (k : Z)
  : jsstring :=
  if bool_decide (original = []) || (k <=? 0) then original
  else (fold_left (decodeStep keyShifts k) (codePoints original) (0%nat, [])).2.

(** [kasiskiData]: the entries of the vote table with [k <= maxK], sorted by
    [k]. The keys are distinct, so the sort fixes the order whatever the order
    of [Object.entries] is. *)
Record KasiskiDatum := { kd_k : Z; kd_votes : Z }.

Definition kasiskiData (kasiskiVotes : gmap Z Z) (maxK : Z) : list KasiskiDatum :=
  sortBy (λ a b, kd_k a - kd_k b ?= 0)
    (filter (λ d, kd_k d <= maxK)
       ((λ e, {| kd_k := e.1; kd_votes := e.2 |}) <$> map_to_list kasiskiVotes)).

(** [iocSweep(s, maxK)]: for [k = 1 .. maxK] the mean of the columns' IoC,
    as [Number(mean.toFixed(5))]. *)
Record IoCSample := { io_k : Z; io_ioc : fixed }.

Definition iocSweep (s : jsstring) (maxK : Z) : list IoCSample :=
  (λ k,
     let cols := splitColumns s (Z.to_nat k) in
     let mean := (fold_left (λ acc col, acc + ioc col) cols 0 / ofZ k)%float in
     {| io_k := k; io_ioc := toFixed 5 mean |}) <$> seqZ 1 maxK.

(** [distancesFromPositions(positions, successiveOnly)] *)
Fixpoint successiveDistances (positions : list nat) : list Z :=
  match positions with
  | a :: (b :: _) as rest => (Z.of_nat b - Z.of_nat a) :: successiveDistances rest
  | _ => []
  end.

Fixpoint pairwiseDistances (positions : list nat) : list Z :=
  match positions with
  | [] => []
  | a :: rest =>
      ((λ b, Z.of_nat b - Z.of_nat a) <$> rest) ++ pairwiseDistances rest
  end.

Definition distancesFromPositions (positions : list nat) (successiveOnly : bool)
  : list Z :=
  if successiveOnly then successiveDistances positions
  else pairwiseDistances positions.

(** [kasiskiVotes]: the votes of every repeat, added up per factor. *)
Definition addVotes (counts : gmap Z Z) (e : Z * Z) : gmap Z Z :=
  <[e.1 := default 0 (counts !! e.1) + e.2]> counts.

Definition kasiskiVotes (repeats : list NGramOccurrence) (pairwise : bool)
    (limitFactors : Z) : gmap Z Z :=
  fold_left
    (λ counts r,
       let dists := distancesFromPositions (positions r) (negb pairwise) in
       let v := factorVotes dists limitFactors in
       fold_left addVotes (map_to_list v) counts)
    repeats ∅.

(** [a || b] on k-values: a missing value and 0 are falsy. *)
Definition jsOr (a b : option Z) : option Z :=
  match a with
  | Some v => if v =? 0 then b else a
  | None => b
  end.

(** [workingK]: [selectedK] is the pin, [None] when there is none. *)
Definition workingK (selectedK : option Z) (kasiskiData : list KasiskiDatum)
    (iocData : list IoCSample) : Z :=
  match jsOr selectedK None with
  | Some pinned => pinned
  | None =>
      let k1 := kd_k <$> head (sortBy (λ a b, kd_votes b - kd_votes a ?= 0) kasiskiData) in
      let k2 := io_k <$> head (sortBy (λ a b, fixed_sub_sign (io_ioc b) (io_ioc a))
                                 iocData) in
      default 1 (jsOr (jsOr k1 k2) (Some 1))
  end.

(** [chiData] and [bestShift]: a [reduce] from [chiData[0]] that replaces the
    running best by an entry with a strictly smaller rounded score. *)
Record ChiDatum := { cd_shift : Z; cd_chi : fixed }.

Definition chiData (activeCol : jsstring) : list ChiDatum :=
  (λ s, {| cd_shift := s; cd_chi := toFixed 3 (chiForShift activeCol s) |}) <$> seqZ 0 26.

Definition bestOf (data : list ChiDatum) : ChiDatum :=
  fold_left (λ best d, if fixed_ltb (cd_chi d) (cd_chi best) then d else best)
    data (default {| cd_shift := 0; cd_chi := Fix 1000000000000 |} (head data)).

Definition bestShift (activeCol : jsstring) : Z := cd_shift (bestOf (chiData activeCol)).

(** [normalizeAZ(s)]. [toUpperCase] is the built-in, which covers the whole
    of Unicode, and is kept as a parameter; the [replace] drops every code
    unit outside A-Z. *)
Definition normalizeAZ (toUpperCase : jsstring → jsstring) (s : jsstring) : jsstring :=
  filter (λ c, 65 <= c <= 90) (toUpperCase s).

(** [highlightOccurrences(text, gram)]. An element is kept as its tag
    ([mark] or [span]), its key (the start index, [None] for the key "whole")
    and its text. Every round of the loop advances [i], so [text.length]
    rounds of fuel are enough. *)
Record Segment := { seg_mark : bool; seg_key : option nat; seg_text : jsstring }.

Fixpoint highlightLoop (fuel : nat) (text gram : jsstring) (i : nat) : list Segment :=
  match fuel with
  | O => []
  | S fuel' =>
      if (i <? length text)%nat then
        let chunk := slice text i (length gram) in
        if decide (chunk = gram)
        then {| seg_mark := true; seg_key := Some i; seg_text := chunk |}
             :: highlightLoop fuel' text gram (i + length gram)
        else {| seg_mark := false; seg_key := Some i; seg_text := slice text i 1 |}
             :: highlightLoop fuel' text gram (i + 1)
      else []
  end.

Definition highlightOccurrences (text gram : jsstring) : list Segment :=
  if bool_decide (gram = [])
  then [ {| seg_mark := false; seg_key := None; seg_text := text |} ]
  else highlightLoop (length text) text gram 0.

(** [shiftToLetter(s)]: "?" for [null]. *)
Definition shiftToLetter (s : option Z) : Z :=
  match s with
  | None => 63
  | Some v => fromCharCode (65 + Z.rem (Z.rem v 26 + 26) 26)
  end.

(** [letterToShift(ch)] on an ASCII character, where [toUpperCase] is
    [upperLetter]; the code applies it to the letters of a manual key. *)
Definition letterToShift (c : Z) : Z := Z.rem (upperLetter c - 65 + 26) 26.

(** The effect that follows [workingK]: the key state cut or padded to
    [workingK] slots, [prev[i] ?? null]. *)
Definition resizeKeyShifts (prev : list (option Z)) (workingK : Z) : list (option Z) :=
  (λ i, default None (prev !! i)) <$> seq 0 (Z.to_nat workingK).

(** The Reset button: every slot [null]. *)
Definition resetKeyShifts (workingK : Z) : list (option Z) :=
  replicate (Z.to_nat workingK) None.

(** [activeCol]: [cols[colIndex] || ""]. *)
Definition activeCol (cols : list jsstring) (colIndex : nat) : jsstring :=
  default [] (cols !! colIndex).

(** [setShiftFor(index, value)], as the next key state. An index past the
    end extends the array; the holes it leaves read as [undefined], the
    [None] of a missing slot. *)
Definition setShiftFor (prev : list (option Z)) (index : nat) (value : Z)
  : list (option Z) :=
  let v := Some (Z.rem (Z.rem value 26 + 26) 26) in
  if (index <? length prev)%nat then <[index := v]> prev
  else prev ++ replicate (index - length prev) None ++ [v].

(** [keyString()], on a key state without holes: one made by the resize
    effect, the reset or [applyManualKey], or by [setShiftFor] at an index
    inside such a state ([map] and [join] pass over the holes that an index
    past the end would leave). *)
Definition keyString (keyShifts : list (option Z)) : jsstring :=
  shiftToLetter <$> keyShifts.

(** [applyManualKey()], as the next key state: the letters of the input, in
    upper case, give the shifts and cycle over the [workingK] slots; an input
    without a letter leaves the state as it is. *)
Definition manualLetters (manualKeyInput : jsstring) : jsstring :=
  upperLetter <$> filter (λ c, isLetter c = true) manualKeyInput.

Definition applyManualKey (manualKeyInput : jsstring) (workingK : Z)
    (keyShifts : list (option Z)) : list (option Z) :=
  if bool_decide (manualKeyInput = []) then keyShifts
  else
    let letters := manualLetters manualKeyInput in
    if bool_decide (letters = []) then keyShifts
    else (λ i, Some (letterToShift
                       (default 0 (letters !! (i mod length letters)%nat))))
           <$> seq 0 (Z.to_nat workingK).

(** [preview]: the decoder on the raw text, with [Math.max(1, workingK)]. *)
Definition preview (raw : jsstring) (keyShifts : list (option Z)) (workingK : Z)
  : jsstring :=
  decodePartial raw keyShifts (Z.max 1 workingK).

(** ** Definitions of the specification *)

(** The votes the specification gives a factor [f]: the number of distances
    [d] with [f] in [2, min(limit, d)] and [d mod f = 0]. *)
Definition voteCount (distances : list Z) (limit f : Z) : nat :=
  length (filter (λ d, 2 <= f <= Z.min limit d ∧ d mod f = 0) distances).

(** The number of letters before position [p]: the 0-based count of letters
    seen so far when the character at [p] is reached. *)
Definition letterIndex (s : jsstring) (p : nat) : nat :=
  length (filter (λ c, isLetter c = true) (take p s)).

(** A letter-wise map: [f j c] replaces the letter [c] that [j] letters
    precede; every other code unit is kept. *)
Fixpoint mapLetters (f : nat → Z → Z) (j : nat) (s : jsstring) : jsstring :=
  match s with
  | [] => []
  | c :: s' =>
      if isLetter c then f j c :: mapLetters f (S j) s'
      else c :: mapLetters f j s'
  end.

(** Encryption by a per-column shift sequence: a letter moves forward by the
    shift of its column and keeps its case. *)
Definition encodeLetter (key : list Z) (j : nat) (c : Z) : Z :=
  let s := default 0 (key !! (j mod length key)%nat) in
  if isUpperAZ c then 65 + (c - 65 + s) mod 26 else 97 + (c - 97 + s) mod 26.

Definition encode (key : list Z) (plain : jsstring) : jsstring :=
  mapLetters (encodeLetter key) 0 plain.

(** Column [i] of a stream split at stride [k]: the characters at the
    positions congruent to [i] modulo [k], in their original order. The
    general form numbers the positions from [i0]. *)
Definition columnFrom (k i i0 : nat) (s : jsstring) : jsstring :=
  (filter (λ e : nat * Z, (e.1 mod k)%nat = i) (imap (λ j c, ((i0 + j)%nat, c)) s)).*2.

Definition column (s : jsstring) (k i : nat) : jsstring := columnFrom k i 0 s.

(** Round-robin reassembly: round [r] takes character [r] of every column
    that has one, in column order. *)
Definition roundRobin (cols : list jsstring) : jsstring :=
  concat ((λ r, omap (λ col : jsstring, col !! r) cols)
            <$> seq 0 (max_list (length <$> cols))).

(** The letter counts [c_0 .. c_25] of a stream. *)
Definition letterCount (s : jsstring) (i : Z) : Z :=
  Z.of_nat (length (filter (λ c, c - 65 = i) s)).

(** The index of coincidence of the specification,
    [Σ c_i (c_i − 1) / (N (N − 1))], evaluated in binary64 with the sum taken
    in the order of the letters. *)
Definition iocFormula (s : jsstring) : float :=
  let N := ofZ (Z.of_nat (length s)) in
  let num := fold_left
               (λ num i, num + ofZ (letterCount s i) * (ofZ (letterCount s i) - 1))%float
               (seqZ 0 26) 0%float in
  (num / (N * (N - 1)))%float.

(** The observed histogram of a column under a candidate shift: [O_i] counts
    the letters whose value minus the shift is [i] modulo 26. *)
Definition observed (col : jsstring) (shift i : Z) : Z :=
  Z.of_nat (length (filter (λ c, (c - 65 - shift) mod 26 = i) col)).

(** The chi-square sum [Σ (O_i − E_i)^2 / divisor(E_i)] with
    [E_i = englishFreq_i × N], in binary64 and in the order of the letters. *)
Definition chiSum (divisor : float → float) (col : jsstring) (shift : Z) : float :=
  let N := Z.of_nat (length col) in
  fold_left
    (λ chi i,
       let E := (ENGat i * ofZ N)%float in
       (chi + chiTerm E (ofZ (observed col shift i)) (divisor E))%float)
    (seqZ 0 26) 0%float.

(** [max(E, 1)], the divisor the specification writes. *)
Definition floorOne (E : float) : float := if PrimFloat.ltb E 1 then 1%float else E.

(** The chi-square profile rounded as [chiData] holds it. *)
Definition chi3 (col : jsstring) (s : Z) : fixed := toFixed 3 (chiForShift col s).

(** [b] is the argmin of [chiForShift] over the shifts 0..25, the smallest
    one on a tie: no shift scores below [b] and every smaller shift scores
    above it. *)
Definition argminShift (col : jsstring) (b : Z) : Prop :=
  0 <= b <= 25
  ∧ (∀ s, 0 <= s <= 25 →
       PrimFloat.ltb (chiForShift col s) (chiForShift col b) = false)
  ∧ (∀ s, 0 <= s < b →
       PrimFloat.ltb (chiForShift col b) (chiForShift col s) = true).

(** The same for the rounded profile. *)
Definition argminShiftRounded (col : jsstring) (b : Z) : Prop :=
  0 <= b <= 25
  ∧ (∀ s, 0 <= s <= 25 → fixed_ltb (chi3 col s) (chi3 col b) = false)
  ∧ (∀ s, 0 <= s < b → fixed_ltb (chi3 col b) (chi3 col s) = true).

(** An entry of the Kasiski vote table restricted to [k <= maxK]. *)
Definition candidate (kasiskiVotes : gmap Z Z) (maxK k v : Z) : Prop :=
  kasiskiVotes !! k = Some v ∧ k <= maxK.

(** The 0-based start positions of [g] as a substring of length [n] of the
    stream, in increasing order. *)
Definition occurrences (s : jsstring) (n : nat) (g : jsstring) : list nat :=
  filter (λ i, (i + n <= length s)%nat ∧ slice s i n = g) (seq 0 (S (length s))).

(** The position at which a gram was first seen. *)
Definition firstPos (pos : list nat) : nat := default 0%nat (head pos).

(** The order of the repeat table: more occurrences first, and among grams
    with as many occurrences the one seen first. *)
Definition repeatOrder (a b : NGramOccurrence) : Prop :=
  (length (positions b) < length (positions a))%nat
  ∨ (length (positions a) = length (positions b)
     ∧ (firstPos (positions a) < firstPos (positions b))%nat).

(** A sweep with its highest mean IoC at [k = 5]. *)
Definition sampleSweep : list IoCSample :=
  [ {| io_k := 1; io_ioc := Fix 4200 |}; {| io_k := 2; io_ioc := Fix 4500 |};
    {| io_k := 3; io_ioc := Fix 4100 |}; {| io_k := 4; io_ioc := Fix 4400 |};
    {| io_k := 5; io_ioc := Fix 6600 |}; {| io_k := 6; io_ioc := Fix 4300 |} ].

(** An entry of the gram object holds the positions seen so far of its gram,
    and at least one; [f i] is the gram that starts at position [i]. *)
Definition entryOk (f : nat → jsstring) (seen : list nat)
    (e : jsstring * list nat) : Prop :=
  e.2 = filter (λ j, f j = e.1) seen ∧ e.2 ≠ [].

(** The invariant of the key state: a determined slot holds a shift in 0..25. *)
Definition wellFormedKey (keyShifts : list (option Z)) : Prop :=
  Forall (λ slot : option Z, ∀ s, slot = Some s → 0 <= s <= 25) keyShifts.

(** Upper case on the letters of a text, every other character kept. *)
Definition upperText (s : jsstring) : jsstring :=
  (λ c, if isLetter c then upperLetter c else c) <$> s.

(** What is known of the built-in [toUpperCase]: on a string of ASCII
    characters it maps a-z to A-Z and keeps the rest. *)
Definition asciiUpperCase (toUpperCase : jsstring → jsstring) : Prop :=
  ∀ s, Forall (λ c, 0 <= c < 128) s → toUpperCase s = upperLetter <$> s.

(** The distances of all the repeats, in the order of the table. *)
Definition repeatDistances (repeats : list NGramOccurrence) (pairwise : bool)
  : list Z :=
  concat ((λ r, distancesFromPositions (positions r) (negb pairwise)) <$> repeats).

(** * Properties *)

(** ** Factor votes *)

Lemma voteLoop_fold_lookup d (fs : list Z) (votes : gmap Z Z) f :
  NoDup fs →
  fold_left
    (λ votes f,
       if decide (Z.rem d f = 0) then <[f := default 0 (votes !! f) + 1]> votes
       else votes) fs votes !! f
  = if decide (f ∈ fs ∧ Z.rem d f = 0) then Some (default 0 (votes !! f) + 1)
    else votes !! f.
Proof.
  intros Hnd. revert votes.
  induction Hnd as [|a fs Ha Hnd IH]; intros votes; simpl.
  - done.
  - rewrite IH. destruct (decide (f = a)) as [->|Hne].
    + rewrite decide_False by tauto.
      destruct (decide (Z.rem d a = 0)) as [Hr|Hr].
      * rewrite lookup_insert_eq. rewrite decide_True; [done|].
        split; [apply list_elem_of_here|done].
      * rewrite decide_False; [done|tauto].
    + assert (Hl : (if decide (Z.rem d a = 0)
                    then <[a := default 0 (votes !! a) + 1]> votes
                    else votes) !! f = votes !! f).
      { destruct (decide (Z.rem d a = 0)); [by rewrite lookup_insert_ne|done]. }
      rewrite Hl.
      destruct (decide (f ∈ fs ∧ Z.rem d f = 0)) as [[Hin Hr]|Hn].
      * rewrite decide_True; [done|]. split; [by apply list_elem_of_further|done].
      * rewrite decide_False; [done|]. intros [Hin Hr]. apply Hn.
        split; [|done]. by apply elem_of_cons in Hin as [?|?].
Qed.

Lemma voteLoop_lookup d limit (votes : gmap Z Z) f :
  voteLoop d limit votes !! f
  = if decide (2 <= f <= Z.min limit d ∧ d mod f = 0)
    then Some (default 0 (votes !! f) + 1) else votes !! f.
Proof.
  unfold voteLoop. rewrite voteLoop_fold_lookup by apply NoDup_seqZ.
  assert (Hiff : f ∈ seqZ 2 (Z.min limit d - 1) ∧ Z.rem d f = 0
                 ↔ 2 <= f <= Z.min limit d ∧ d mod f = 0).
  { rewrite elem_of_seqZ. split.
    - intros [Hf Hr]. split; [lia|]. rewrite <- Hr. symmetry.
      apply Z.rem_mod_nonneg; lia.
    - intros [Hf Hm]. split; [lia|]. rewrite <- Hm.
      apply Z.rem_mod_nonneg; lia. }
  repeat case_decide; tauto.
Qed.

Lemma factorVotes_fold_lookup (distances : list Z) limit (votes : gmap Z Z) f :
  fold_left (λ votes d, voteLoop d limit votes) distances votes !! f
  = if decide (voteCount distances limit f = 0%nat) then votes !! f
    else Some (default 0 (votes !! f) + Z.of_nat (voteCount distances limit f)).
Proof.
  revert votes. unfold voteCount.
  induction distances as [|d ds IH]; intros votes; simpl; [done|].
  rewrite IH, voteLoop_lookup, filter_cons.
  destruct (decide (2 <= f <= Z.min limit d ∧ d mod f = 0)) as [Hd|Hd]; simpl.
  - case_decide as Hc; f_equal; rewrite ?Hc; lia.
  - done.
Qed.

(** C7. [factorVotes] gives each factor [f] exactly one vote per distance [d]
    with [f] in [2, min(limit, d)] and [d mod f = 0], and records no entry
    for a factor without such a distance; [factorVotes([12], 30)] is the
    table of the factors 2, 3, 4, 6 and 12 with one vote each, without 5
    and 24. *)
Theorem factorVotes_counts :
  (∀ (distances : list Z) (limit f : Z),
     factorVotes distances limit !! f
     = if decide (voteCount distances limit f = 0%nat) then None
       else Some (Z.of_nat (voteCount distances limit f)))
  ∧ factorVotes [12] 30
    = list_to_map [(2, 1); (3, 1); (4, 1); (6, 1); (12, 1)]
  ∧ factorVotes [12] 30 !! 5 = None
  ∧ factorVotes [12] 30 !! 24 = None.
Proof.
  split; [|by vm_compute].
  intros distances limit f. unfold factorVotes.
  rewrite factorVotes_fold_lookup, lookup_empty. by case_decide.
Qed.

(** ** Partial decoding *)

(** Case analysis on the range tests of code units. *)
Ltac zbool :=
  unfold isLetter, isUpperAZ, isLowerAZ, isHighSurrogate, isLowSurrogate in *;
  repeat match goal with
         | |- context [?a <=? ?b] => destruct (Z.leb_spec a b)
         | H : context [?a <=? ?b] |- _ => destruct (Z.leb_spec a b)
         end;
  simpl in *; try done; try lia.

Lemma isLetter_range c : isLetter c = true ↔ 65 <= c <= 90 ∨ 97 <= c <= 122.
Proof. split; [intros H|intros [H|H]]; zbool. Qed.

Lemma surrogate_pair_not_letter c d :
  isHighSurrogate c && isLowSurrogate d = true →
  isLetter c = false ∧ isLetter d = false.
Proof. intros H. split; zbool. Qed.

Lemma upperLetter_range c : isLetter c = true → 65 <= upperLetter c <= 90.
Proof. intros H. unfold upperLetter. zbool. Qed.

Lemma codePoints_cons2 c d r :
  codePoints (c :: d :: r)
  = if isHighSurrogate c && isLowSurrogate d
    then [c; d] :: codePoints r else [c] :: codePoints (d :: r).
Proof. done. Qed.

Lemma decodeStep_unit ks k j out c :
  decodeStep ks k (j, out) [c]
  = if isLetter c then (S j, out ++ [decodeLetter ks k j c]) else (j, out ++ [c]).
Proof.
  unfold decodeStep, testLetter. cbn [existsb]. rewrite orb_false_r.
  by destruct (isLetter c).
Qed.

Lemma decodeStep_pair ks k j out c d :
  isHighSurrogate c && isLowSurrogate d = true →
  decodeStep ks k (j, out) [c; d] = (j, out ++ [c; d]).
Proof.
  intros Hs. destruct (surrogate_pair_not_letter c d Hs) as [Hc Hd].
  unfold decodeStep, testLetter. cbn [existsb]. by rewrite Hc, Hd.
Qed.

(** The loop over code points does what a loop over code units does: a
    surrogate pair holds no letter and is copied whole. *)
Lemma decode_fold ks k n :
  ∀ (s : jsstring) (j : nat) (out : jsstring),
    (length s <= n)%nat →
    (fold_left (decodeStep ks k) (codePoints s) (j, out)).2
    = out ++ mapLetters (decodeLetter ks k) j s.
Proof.
  induction n as [|n IH]; intros s j out Hlen.
  - destruct s; simpl in Hlen; [|lia]. simpl. by rewrite app_nil_r.
  - destruct s as [|c [|d r]].
    + simpl. by rewrite app_nil_r.
    + cbn [codePoints fold_left mapLetters]. rewrite decodeStep_unit.
      by destruct (isLetter c).
    + rewrite codePoints_cons2.
      destruct (isHighSurrogate c && isLowSurrogate d) eqn:Hs.
      * destruct (surrogate_pair_not_letter c d Hs) as [Hc Hd].
        cbn [fold_left mapLetters]. rewrite Hc, Hd, decodeStep_pair by done.
        rewrite IH by (cbn [length] in *; lia).
        by rewrite <- app_assoc.
      * cbn [fold_left]. rewrite decodeStep_unit.
        change (mapLetters (decodeLetter ks k) j (c :: d :: r))
          with (if isLetter c
                then decodeLetter ks k j c :: mapLetters (decodeLetter ks k) (S j) (d :: r)
                else c :: mapLetters (decodeLetter ks k) j (d :: r)).
        destruct (isLetter c); rewrite IH by (cbn [length] in *; lia);
          by rewrite <- app_assoc.
Qed.

Lemma decodePartial_units raw ks k :
  0 < k → decodePartial raw ks k = mapLetters (decodeLetter ks k) 0 raw.
Proof.
  intros Hk. unfold decodePartial.
  case_bool_decide as Hraw; [by subst|].
  destruct (Z.leb_spec k 0); [lia|]. cbn [orb].
  by rewrite (decode_fold ks k (length raw)).
Qed.

Lemma mapLetters_length f j s : length (mapLetters f j s) = length s.
Proof.
  revert j. induction s as [|c s IH]; intros j; simpl; [done|].
  destruct (isLetter c); simpl; by rewrite IH.
Qed.

Lemma letterIndex_0 s : letterIndex s 0 = 0%nat.
Proof. done. Qed.

Lemma letterIndex_S c s p :
  letterIndex (c :: s) (S p)
  = ((if isLetter c then 1 else 0) + letterIndex s p)%nat.
Proof.
  unfold letterIndex. cbn [take]. rewrite filter_cons.
  destruct (isLetter c); by case_decide.
Qed.

Lemma mapLetters_lookup f j s p :
  mapLetters f j s !! p
  = (λ c, if isLetter c then f (j + letterIndex s p)%nat c else c) <$> s !! p.
Proof.
  revert j p. induction s as [|c s IH]; intros j p; [done|].
  destruct p as [|p].
  - rewrite letterIndex_0, Nat.add_0_r. simpl. by destruct (isLetter c).
  - rewrite letterIndex_S. cbn [mapLetters].
    destruct (isLetter c); cbn [lookup list_lookup]; rewrite IH;
      by rewrite ?Nat.add_succ_l, ?Nat.add_succ_r, ?Nat.add_0_l.
Qed.

Lemma mapLetters_Forall2 (P : Z → Z → Prop) f j s :
  (∀ c, P c c) →
  (∀ j c, isLetter c = true → P c (f j c)) →
  Forall2 P s (mapLetters f j s).
Proof.
  intros Hrefl Hf. revert j.
  induction s as [|c s IH]; intros j; simpl; [constructor|].
  destruct (isLetter c) eqn:Hc; constructor; auto.
Qed.

Lemma mapLetters_ext f g j s :
  (∀ j c, f j c = g j c) → mapLetters f j s = mapLetters g j s.
Proof.
  intros Hfg. revert j.
  induction s as [|c s IH]; intros j; simpl; [done|].
  by rewrite Hfg, !IH.
Qed.

Lemma mapLetters_letterIndex f j s p :
  (∀ j c, isLetter c = true → isLetter (f j c) = true) →
  letterIndex (mapLetters f j s) p = letterIndex s p.
Proof.
  intros Hf. revert j p.
  induction s as [|c s IH]; intros j p; [done|].
  destruct p as [|p]; [done|]. cbn [mapLetters].
  destruct (isLetter c) eqn:Hc; rewrite !letterIndex_S, ?Hc, ?Hf, ?IH; done.
Qed.

(** A determined shift in 0..25 decodes a letter to an upper-case letter. *)
Lemma decode_arith c s :
  isLetter c = true → 0 <= s <= 25 →
  65 <= fromCharCode (Z.rem (upperLetter c - 65 - s + 26) 26 + 65) <= 90.
Proof.
  intros Hc Hs. pose proof (upperLetter_range c Hc) as Hu.
  unfold fromCharCode. rewrite Z.rem_mod_nonneg by lia.
  pose proof (Z.mod_pos_bound (upperLetter c - 65 - s + 26) 26).
  rewrite Z.mod_small; lia.
Qed.

Lemma decodeLetter_cases ks k j c :
  isLetter c = true →
  Forall (λ slot : option Z, ∀ s, slot = Some s → 0 <= s <= 25) ks →
  decodeLetter ks k j c = placeholder ∨ 65 <= decodeLetter ks k j c <= 90.
Proof.
  intros Hc Hks. unfold decodeLetter.
  destruct (ks !! (j mod Z.to_nat k)%nat) as [[s|]|] eqn:Hl; [|by left..].
  right. apply decode_arith; [done|].
  rewrite Forall_forall in Hks. apply (Hks (Some s)); [|done].
  by eapply list_elem_of_lookup_2.
Qed.

(** An index past the end of the key-shift list reads [undefined], which the
    decoder treats as the [null] of an undetermined slot. *)
Lemma decodeLetter_pad ks m k j c :
  decodeLetter (ks ++ replicate m None) k j c = decodeLetter ks k j c.
Proof.
  unfold decodeLetter.
  destruct (decide (j mod Z.to_nat k < length ks)%nat) as [Hlt|Hge].
  - by rewrite lookup_app_l.
  - rewrite lookup_app_r by lia. rewrite (lookup_ge_None_2 ks) by lia.
    destruct (replicate m None !! _) as [x|] eqn:Hr; [|done].
    apply lookup_replicate in Hr as [-> _]. done.
Qed.

(** C9. The string [decodePartial] returns has the length of the raw input,
    whatever the key-shift list and [k] are; and with determined shifts in
    0..25 each output character is the placeholder, an upper-case letter or
    the input character itself. *)
Theorem decodePartial_length (raw : jsstring) (ks : list (option Z)) (k : Z) :
  length (decodePartial raw ks k) = length raw
  ∧ (Forall (λ slot : option Z, ∀ s, slot = Some s → 0 <= s <= 25) ks →
     Forall2 (λ c o, o = placeholder ∨ 65 <= o <= 90 ∨ o = c)
       raw (decodePartial raw ks k)).
Proof.
  destruct (decide (0 < k)) as [Hk|Hk].
  - rewrite decodePartial_units by done. split.
    + apply mapLetters_length.
    + intros Hks. apply mapLetters_Forall2; [by auto|].
      intros j c Hc. destruct (decodeLetter_cases ks k j c Hc Hks); auto.
  - unfold decodePartial. destruct (Z.leb_spec k 0); [|lia].
    rewrite orb_true_r. split; [done|]. intros _.
    apply Forall2_same_length_lookup_2; [done|].
    intros i x y Hx Hy. right; right. congruence.
Qed.

Lemma decodePartial_length_witness :
  Forall2 (λ c o, o = placeholder ∨ 65 <= o <= 90 ∨ o = c)
    (str "Hi, you!")
    (decodePartial (str "Hi, you!") [Some 1; None; Some 25] 3).
Proof.
  apply (decodePartial_length (str "Hi, you!") [Some 1; None; Some 25] 3).
  repeat first [apply Forall_nil_2 | apply Forall_cons_2];
    intros s Hs; inversion Hs; lia.
Defined.

(** C10. [decodePartial] needs no entry for every column: with [k >= 1] it
    returns a string of the input's length, the same string as when the
    key-shift list is padded with undetermined slots, and a letter whose
    column index (letters seen so far mod [k]) is past the end of the list is
    rendered as the placeholder. *)
Theorem decodePartial_missing_slots (raw : jsstring) (ks : list (option Z)) (k : Z) :
  1 <= k →
  length (decodePartial raw ks k) = length raw
  ∧ decodePartial raw ks k
    = decodePartial raw (ks ++ replicate (Z.to_nat k - length ks) None) k
  ∧ ∀ (p : nat) (c : Z),
      raw !! p = Some c → isLetter c = true →
      (length ks <= letterIndex raw p mod Z.to_nat k)%nat →
      decodePartial raw ks k !! p = Some placeholder.
Proof.
  intros Hk. rewrite !decodePartial_units by lia. split_and!.
  - apply mapLetters_length.
  - apply mapLetters_ext. intros j c. by rewrite decodeLetter_pad.
  - intros p c Hp Hc Hcol. rewrite mapLetters_lookup, Hp. cbn [fmap option_fmap option_map].
    rewrite Hc, Nat.add_0_l. unfold decodeLetter.
    by rewrite lookup_ge_None_2.
Qed.

Lemma decodePartial_missing_slots_witness :
  decodePartial (str "ab-cd") [Some 1] 2 !! 1%nat = Some placeholder.
Proof.
  refine (proj2 (proj2 (decodePartial_missing_slots (str "ab-cd") [Some 1] 2 _))
            1%nat 98 _ _ _).
  - lia.
  - reflexivity.
  - reflexivity.
  - vm_compute. lia.
Defined.

(** Shifting a letter forward and undoing the shift gives the letter back,
    in upper case. *)
Lemma encode_decode_arith c s :
  isLetter c = true → 0 <= s <= 25 →
  let c' := if isUpperAZ c then 65 + (c - 65 + s) mod 26
            else 97 + (c - 97 + s) mod 26 in
  isLetter c' = true
  ∧ fromCharCode (Z.rem (upperLetter c' - 65 - s + 26) 26 + 65) = upperLetter c.
Proof.
  intros Hc Hs c'.
  assert (Hc' : isLetter c' = true).
  { subst c'. apply isLetter_range. apply isLetter_range in Hc.
    pose proof (Z.mod_pos_bound (c - 65 + s) 26).
    pose proof (Z.mod_pos_bound (c - 97 + s) 26).
    destruct (isUpperAZ c); lia. }
  split; [done|].
  pose proof (upperLetter_range c' Hc') as Hu'.
  unfold fromCharCode. rewrite Z.rem_mod_nonneg by lia.
  pose proof (Z.mod_pos_bound (upperLetter c' - 65 - s + 26) 26).
  rewrite (Z.mod_small _ 65536) by lia.
  apply isLetter_range in Hc.
  subst c'. unfold upperLetter in *. unfold isUpperAZ, isLowerAZ in *.
  repeat match goal with
         | |- context [?a <=? ?b] => destruct (Z.leb_spec a b)
         | H : context [?a <=? ?b] |- _ => destruct (Z.leb_spec a b)
         end; cbn [andb] in *;
    Z.to_euclidean_division_equations; lia.
Qed.

Lemma encodeLetter_letter key j c :
  Forall (λ s, 0 <= s <= 25) key → key ≠ [] →
  isLetter c = true → isLetter (encodeLetter key j c) = true.
Proof.
  intros Hkey Hne Hc. unfold encodeLetter.
  assert (Hj : (j mod length key < length key)%nat).
  { apply Nat.mod_upper_bound. by destruct key. }
  destruct (lookup_lt_is_Some_2 key _ Hj) as [s Hs]. rewrite Hs. cbn [default].
  apply encode_decode_arith; [done|].
  rewrite Forall_forall in Hkey. apply Hkey. by eapply list_elem_of_lookup_2.
Qed.

(** C2. Encrypt a plaintext per column with a shift sequence [key] of
    length [k >= 1] and shifts in 0..25, then decode with the same key state:
    the result has the plaintext's length, every letter comes back in upper
    case and every other character is unchanged; and with slot [u] of the key
    state undetermined instead, the letters of column [u] are the placeholder
    and everything else is as before. *)
Theorem decodePartial_roundtrip (plain : jsstring) (key : list Z) :
  key ≠ [] →
  Forall (λ s, 0 <= s <= 25) key →
  let k := length key in
  let cipher := encode key plain in
  (length (decodePartial cipher (Some <$> key) (Z.of_nat k)) = length plain
   ∧ ∀ (p : nat) (c : Z), plain !! p = Some c →
       decodePartial cipher (Some <$> key) (Z.of_nat k) !! p
       = Some (if isLetter c then upperLetter c else c))
  ∧ ∀ u : nat, (u < k)%nat →
      length (decodePartial cipher (<[u := None]> (Some <$> key)) (Z.of_nat k))
      = length plain
      ∧ ∀ (p : nat) (c : Z), plain !! p = Some c →
          decodePartial cipher (<[u := None]> (Some <$> key)) (Z.of_nat k) !! p
          = Some (if isLetter c
                  then if decide ((letterIndex plain p mod k)%nat = u)
                       then placeholder else upperLetter c
                  else c).
Proof.
  intros Hne Hkey k cipher.
  assert (Hk : (0 < k)%nat) by (subst k; destruct key; [done|simpl; lia]).
  assert (Hlook : ∀ ks p c, plain !! p = Some c →
            decodePartial cipher ks (Z.of_nat k) !! p
            = Some (if isLetter c
                    then decodeLetter ks (Z.of_nat k) (letterIndex plain p)
                           (encodeLetter key (letterIndex plain p) c)
                    else c)).
  { intros ks p c Hp. rewrite decodePartial_units by lia.
    rewrite mapLetters_lookup. subst cipher. unfold encode.
    rewrite mapLetters_letterIndex by (intros; by apply encodeLetter_letter).
    rewrite mapLetters_lookup, Hp. cbn [fmap option_fmap option_map].
    rewrite !Nat.add_0_l. destruct (isLetter c) eqn:Hc; [|by rewrite Hc].
    by rewrite encodeLetter_letter. }
  assert (Hlen : ∀ ks, length (decodePartial cipher ks (Z.of_nat k)) = length plain).
  { intros ks. rewrite decodePartial_units by lia.
    subst cipher. unfold encode. by rewrite !mapLetters_length. }
  assert (Hdec : ∀ ks j c s,
            isLetter c = true →
            key !! (j mod k)%nat = Some s →
            ks !! (j mod k)%nat = Some (Some s) →
            decodeLetter ks (Z.of_nat k) j (encodeLetter key j c) = upperLetter c).
  { intros ks j c s Hc Hs Hks. unfold decodeLetter, encodeLetter.
    rewrite Nat2Z.id. fold k. rewrite Hks, Hs. cbn [default].
    apply encode_decode_arith; [done|].
    rewrite Forall_forall in Hkey. apply Hkey. by eapply list_elem_of_lookup_2. }
  assert (Hslot : ∀ j, ∃ s, key !! (j mod k)%nat = Some s).
  { intros j. apply lookup_lt_is_Some_2. apply Nat.mod_upper_bound. lia. }
  split; [split; [apply Hlen|]|].
  - intros p c Hp. rewrite (Hlook _ p c Hp).
    destruct (isLetter c) eqn:Hc; [|done].
    destruct (Hslot (letterIndex plain p)) as [s Hs].
    rewrite (Hdec _ _ _ s); [done..|]. by rewrite list_lookup_fmap, Hs.
  - intros u Hu. split; [apply Hlen|].
    intros p c Hp. rewrite (Hlook _ p c Hp).
    destruct (isLetter c) eqn:Hc; [|done].
    destruct (Hslot (letterIndex plain p)) as [s Hs].
    case_decide as Hcol.
    + unfold decodeLetter. rewrite Nat2Z.id. fold k. rewrite Hcol.
      rewrite list_lookup_insert_eq; [done|]. rewrite length_fmap. by fold k.
    + rewrite (Hdec _ _ _ s); [done..|].
      rewrite list_lookup_insert_ne by done. by rewrite list_lookup_fmap, Hs.
Qed.

Lemma decodePartial_roundtrip_witness :
  decodePartial (encode [3; 0; 25] (str "Attack at dawn!")) (Some <$> [3; 0; 25]) 3
    !! 1%nat = Some 84.
Proof.
  refine (proj2 (proj1 (decodePartial_roundtrip (str "Attack at dawn!") [3; 0; 25] _ _))
            1%nat 116 _).
  - done.
  - repeat first [apply Forall_nil_2 | apply Forall_cons_2]; lia.
  - reflexivity.
Defined.

(** ** Column splitting *)

Lemma columnFrom_cons k i i0 c s :
  columnFrom k i i0 (c :: s)
  = if decide ((i0 mod k)%nat = i) then c :: columnFrom k i (S i0) s
    else columnFrom k i (S i0) s.
Proof.
  unfold columnFrom. rewrite imap_cons, filter_cons. cbn [fst].
  rewrite Nat.add_0_r.
  assert (Hext : imap ((λ j c, ((i0 + j)%nat, c)) ∘ S) s
                 = imap (λ j c, ((S i0 + j)%nat, c)) s).
  { apply imap_ext. intros j x _. simpl. f_equal. lia. }
  rewrite Hext. by case_decide.
Qed.

Lemma columnFrom_snoc k i i0 s c :
  columnFrom k i i0 (s ++ [c])
  = columnFrom k i i0 s
    ++ (if decide (((i0 + length s) mod k)%nat = i) then [c] else []).
Proof.
  unfold columnFrom. rewrite imap_app, filter_app, fmap_app. f_equal.
  cbn [imap]. rewrite filter_cons, filter_nil. cbn [fst].
  rewrite Nat.add_0_r. by case_decide.
Qed.

Lemma splitLoop_length k i s cols : length (splitLoop k i s cols) = length cols.
Proof.
  revert i cols. induction s as [|c s IH]; intros i cols; simpl; [done|].
  by rewrite IH, length_alter.
Qed.

(** The loop appends to every column the characters of its residue class. *)
Lemma splitLoop_lookup k i s (cols : list jsstring) i' :
  splitLoop k i s cols !! i'
  = (λ col, col ++ columnFrom k i' i s) <$> cols !! i'.
Proof.
  revert i cols. induction s as [|c s IH]; intros i cols.
  - simpl. destruct (cols !! i'); simpl; [|done]. by rewrite app_nil_r.
  - cbn [splitLoop]. rewrite IH, columnFrom_cons.
    destruct (decide ((i mod k)%nat = i')) as [->|Hne].
    + rewrite list_lookup_alter_eq. destruct (cols !! _); simpl; [|done].
      by rewrite <- app_assoc.
    + by rewrite list_lookup_alter_ne.
Qed.

Lemma sum_length_alter (cols : list jsstring) j c :
  (j < length cols)%nat →
  sum_list (length <$> alter (λ col, col ++ [c]) j cols)
  = S (sum_list (length <$> cols)).
Proof.
  revert j. induction cols as [|col cols IH]; intros j Hj; simpl in Hj; [lia|].
  destruct j as [|j]; cbn.
  - rewrite length_app. simpl. lia.
  - rewrite IH by lia. lia.
Qed.

Lemma splitLoop_sum k i s (cols : list jsstring) :
  length cols = k → (0 < k)%nat →
  sum_list (length <$> splitLoop k i s cols)
  = (sum_list (length <$> cols) + length s)%nat.
Proof.
  intros Hk Hpos. revert i cols Hk.
  induction s as [|c s IH]; intros i cols Hk; simpl; [lia|].
  rewrite IH by (by rewrite length_alter).
  rewrite sum_length_alter; [lia|]. rewrite Hk. apply Nat.mod_upper_bound. lia.
Qed.

(** Character [m] of column [i] is the stream's character [m * k + i]. *)
Lemma column_lookup s k i :
  (i < k)%nat → ∀ m, column s k i !! m = s !! (m * k + i)%nat.
Proof.
  intros Hi. unfold column. induction s as [|c s IH] using rev_ind; [done|].
  intros m. rewrite columnFrom_snoc, Nat.add_0_l.
  assert (Hiff : ∀ m, (m < length (columnFrom k i 0 s))%nat
                      ↔ (m * k + i < length s)%nat).
  { intros m'. by rewrite <- !lookup_lt_is_Some, IH. }
  revert IH Hiff. generalize (columnFrom k i 0 s). intros L IH Hiff.
  pose proof (Nat.div_mod_eq (length s) k) as Hdiv.
  case_decide as Hmod.
  - assert (HL : (length L * k + i = length s)%nat).
    { pose proof (Hiff (length L)). pose proof (Hiff (length s / k)%nat). nia. }
    destruct (Nat.lt_total m (length L)) as [Hm|[->|Hm]].
    + rewrite lookup_app_l by done.
      rewrite lookup_app_l by (by apply Hiff). apply IH.
    + rewrite HL. by rewrite !list_lookup_middle.
    + rewrite !lookup_ge_None_2; [done|..]; rewrite length_app; simpl; nia.
  - rewrite app_nil_r.
    assert (Hne : (m * k + i)%nat ≠ length s).
    { intros Heq. apply Hmod. rewrite <- Heq, Nat.add_comm, Nat.Div0.mod_add.
      by apply Nat.mod_small. }
    destruct (decide (m * k + i < length s)%nat) as [Hlt|Hge].
    + rewrite (lookup_app_l s) by done. apply IH.
    + rewrite IH. rewrite !lookup_ge_None_2; [done|..]; rewrite ?length_app; simpl; lia.
Qed.

Lemma splitColumns_length s k : length (splitColumns s k) = k.
Proof. unfold splitColumns. by rewrite splitLoop_length, length_replicate. Qed.

Lemma splitColumns_lookup s k i :
  (i < k)%nat → splitColumns s k !! i = Some (column s k i).
Proof.
  intros Hi. unfold splitColumns.
  by rewrite splitLoop_lookup, lookup_replicate_2.
Qed.

Lemma splitColumns_columns s k : splitColumns s k = column s k <$> seq 0 k.
Proof.
  apply list_eq. intros i. rewrite list_lookup_fmap.
  destruct (decide (i < k)%nat) as [Hi|Hi].
  - by rewrite splitColumns_lookup, lookup_seq_lt.
  - rewrite lookup_seq_ge by lia.
    apply lookup_ge_None_2. rewrite splitColumns_length. lia.
Qed.

(** One round of the reassembly is the next [k] characters of the stream. *)
Lemma omap_lookup_seq (s : jsstring) a k :
  omap (λ i, s !! (a + i)%nat) (seq 0 k) = take k (drop a s).
Proof.
  induction k as [|k IH]; [done|].
  rewrite seq_S, omap_app, IH. cbn [omap list_omap]. rewrite Nat.add_0_l.
  destruct (s !! (a + k)%nat) as [x|] eqn:Hx.
  - symmetry. apply take_S_r. by rewrite lookup_drop.
  - rewrite app_nil_r. apply lookup_ge_None in Hx.
    rewrite !take_ge; [done|..]; rewrite length_drop; lia.
Qed.

Lemma round_of_columns s k r :
  omap (λ col : jsstring, col !! r) (splitColumns s k) = take k (drop (r * k) s).
Proof.
  rewrite splitColumns_columns, <- omap_lookup_seq.
  assert (Hgen : ∀ l : list nat, Forall (λ i, i < k)%nat l →
            omap (λ col : jsstring, col !! r) (column s k <$> l)
            = omap (λ i, s !! (r * k + i)%nat) l).
  { intros l Hl. induction Hl as [|i l Hi Hl IH]; [done|].
    cbn. rewrite IH, column_lookup by done. done. }
  apply Hgen. apply Forall_forall. intros i Hi. apply elem_of_seq in Hi. lia.
Qed.

Lemma chunks_concat k R :
  ∀ s : jsstring, (length s <= R * k)%nat →
    concat ((λ r, take k (drop (r * k) s)) <$> seq 0 R) = s.
Proof.
  induction R as [|R IH]; intros s Hlen.
  - destruct s; simpl in *; [done|lia].
  - cbn [seq fmap list_fmap concat]. rewrite <- fmap_S_seq, <- list_fmap_compose.
    rewrite Nat.mul_0_l, drop_0.
    rewrite <- (take_drop k s) at 2. f_equal.
    transitivity (concat ((λ r, take k (drop (r * k) (drop k s))) <$> seq 0 R));
      [|apply IH; rewrite length_drop; lia].
    f_equal. apply list_fmap_ext. intros _ r _. simpl.
    rewrite drop_drop. by rewrite Nat.add_comm.
Qed.

Lemma sum_list_le_max (l : list nat) :
  (sum_list l <= length l * max_list l)%nat.
Proof.
  induction l as [|x l IH]; simpl; [lia|].
  pose proof (Nat.mul_le_mono_l (max_list l) (x `max` max_list l) (length l)
                ltac:(lia)).
  lia.
Qed.

Lemma splitColumns_sum s k :
  (0 < k)%nat → sum_list (length <$> splitColumns s k) = length s.
Proof.
  intros Hk. unfold splitColumns.
  rewrite splitLoop_sum by (by rewrite ?length_replicate).
  assert (Hz : ∀ n, sum_list (length <$> replicate n ([] : jsstring)) = 0%nat).
  { intros n. induction n as [|n IH]; [done|]. cbn. by rewrite IH. }
  by rewrite Hz.
Qed.

(** C4. For [k >= 1], [splitColumns(stream, k)] is [k] columns, column [i]
    holding, in order, the characters at the positions congruent to [i]
    modulo [k]; the column lengths add up to the stream's length and
    round-robin reassembly of the columns is the stream. *)
Theorem splitColumns_partition (s : jsstring) (k : nat) :
  (1 <= k)%nat →
  length (splitColumns s k) = k
  ∧ (∀ i, (i < k)%nat → splitColumns s k !! i = Some (column s k i))
  ∧ (∀ i m, (i < k)%nat → column s k i !! m = s !! (m * k + i)%nat)
  ∧ sum_list (length <$> splitColumns s k) = length s
  ∧ roundRobin (splitColumns s k) = s.
Proof.
  intros Hk. split_and!.
  - apply splitColumns_length.
  - intros i Hi. by apply splitColumns_lookup.
  - intros i m Hi. by apply column_lookup.
  - by apply splitColumns_sum.
  - unfold roundRobin.
    erewrite list_fmap_ext; [|intros _ r _; apply round_of_columns].
    apply chunks_concat.
    pose proof (sum_list_le_max (length <$> splitColumns s k)) as Hmax.
    rewrite splitColumns_sum, length_fmap, splitColumns_length in Hmax by lia.
    lia.
Qed.

Lemma splitColumns_partition_witness :
  splitColumns (str "ABABABAB") 2 !! 1%nat = Some (str "BBBB").
Proof.
  exact (proj1 (proj2 (splitColumns_partition (str "ABABABAB") 2 ltac:(lia)))
           1%nat ltac:(lia)).
Defined.

(** ** Histograms *)

Lemma jsIncr_in_range j (arr : cells) :
  0 <= j < Z.of_nat (length arr) →
  jsIncr j arr = alter (fmap Z.succ) (Z.to_nat j) arr.
Proof.
  intros Hj. unfold jsIncr.
  destruct (Z.ltb_spec j 0); [lia|].
  destruct (Nat.ltb_spec (Z.to_nat j) (length arr)); [done|lia].
Qed.

(** Counting into an array of counters: cell [i] grows by the number of
    elements whose index is [i]. *)
Lemma histogram_lookup {A} (g : A → Z) (xs : list A) :
  ∀ (arr : cells) (i : nat),
    Forall (λ x, 0 <= g x < Z.of_nat (length arr)) xs →
    fold_left (λ a x, jsIncr (g x) a) xs arr !! i
    = fmap (Z.add (Z.of_nat (length (filter (λ x, g x = Z.of_nat i) xs))))
        <$> arr !! i.
Proof.
  induction xs as [|x xs IH]; intros arr i Hxs.
  - cbn. destruct (arr !! i) as [[n|]|]; done.
  - apply Forall_cons in Hxs as [Hx Hxs]. cbn [fold_left].
    rewrite jsIncr_in_range by done.
    rewrite IH by (by rewrite length_alter). rewrite filter_cons.
    destruct (decide (g x = Z.of_nat i)) as [Hg|Hg].
    + replace (Z.to_nat (g x)) with i by lia. rewrite list_lookup_alter_eq.
      destruct (arr !! i) as [[n|]|]; cbn; [|done..].
      do 2 f_equal. lia.
    + rewrite list_lookup_alter_ne by lia. done.
Qed.

Lemma histogram_cells {A} (g : A → Z) (xs : list A) :
  Forall (λ x, 0 <= g x < 26) xs →
  fold_left (λ a x, jsIncr (g x) a) xs (replicate 26 (Some 0))
  = (λ i, Some (Z.of_nat (length (filter (λ x, g x = i) xs)))) <$> seqZ 0 26.
Proof.
  intros Hxs. apply list_eq. intros i.
  rewrite histogram_lookup by (by rewrite length_replicate).
  rewrite list_lookup_fmap.
  destruct (decide (i < 26)%nat) as [Hi|Hi].
  - rewrite lookup_replicate_2 by done.
    rewrite lookup_seqZ_lt by lia. cbn.
    change (0 + Z.of_nat i) with (Z.of_nat i). by rewrite Z.add_0_r.
  - rewrite (lookup_ge_None_2 (replicate _ _)) by (rewrite length_replicate; lia).
    by rewrite lookup_seqZ_ge by lia.
Qed.

Lemma fold_left_fmap {A B C} (f : A → B → A) (h : C → B) (l : list C) (a : A) :
  fold_left f (h <$> l) a = fold_left (λ a x, f a (h x)) l a.
Proof. revert a. induction l as [|x l IH]; intros a; cbn; [done|]. apply IH. Qed.

Lemma fold_left_ext_in {A B} (f g : A → B → A) (l : list B) (a : A) :
  (∀ a x, x ∈ l → f a x = g a x) → fold_left f l a = fold_left g l a.
Proof.
  revert a. induction l as [|x l IH]; intros a Hfg; cbn; [done|].
  rewrite Hfg by apply list_elem_of_here. apply IH.
  intros a' y Hy. apply Hfg. by apply list_elem_of_further.
Qed.

Lemma filter_ext_Forall {A} (P Q : A → Prop) `{!∀ x, Decision (P x)}
    `{!∀ x, Decision (Q x)} (l : list A) :
  Forall (λ x, P x ↔ Q x) l → filter P l = filter Q l.
Proof.
  induction 1 as [|x l Hx Hl IH]; [done|].
  rewrite !filter_cons, IH. repeat case_decide; tauto.
Qed.

Lemma codePoints_canonical s : canonical s → codePoints s = (λ c, [c]) <$> s.
Proof.
  induction 1 as [|c s Hc Hs IH]; [done|].
  destruct s as [|d r]; [done|].
  rewrite codePoints_cons2, IH.
  assert (isHighSurrogate c = false) as -> by zbool. done.
Qed.

Lemma canonical_check s : forallb isUpperAZ s = true → canonical s.
Proof.
  intros H. apply Forall_forall. intros c Hc.
  rewrite forallb_forall in H. apply list_elem_of_In, H in Hc. zbool.
Qed.

(** ** Index of coincidence *)

(** C5. For a stream of [N >= 2] upper-case letters, [ioc] is
    [Σ c_i (c_i − 1) / (N (N − 1))] over the 26 letter counts; for a stream
    of length below 2 it is 0; [ioc("AAAA")] is 1, [ioc("")] and [ioc("A")]
    are 0. *)
Theorem ioc_formula :
  (∀ s : jsstring, canonical s → (2 <= length s)%nat → ioc s = iocFormula s)
  ∧ (∀ s : jsstring, (length s < 2)%nat → ioc s = 0%float)
  ∧ ioc (str "AAAA") = 1%float
  ∧ ioc (str "") = 0%float
  ∧ ioc (str "A") = 0%float.
Proof.
  split_and!; [| |by vm_compute..].
  - intros s Hs Hlen. unfold ioc, iocFormula.
    destruct (Nat.ltb_spec (length s) 2); [lia|].
    rewrite (histogram_cells (λ u, u - 65)).
    + by rewrite fold_left_fmap.
    + eapply Forall_impl; [exact Hs|]. intros c Hc. simpl in Hc. lia.
  - intros s Hlen. unfold ioc.
    destruct (Nat.ltb_spec (length s) 2); [done|lia].
Qed.

Lemma ioc_formula_witness : ioc (str "ABABABAB") = iocFormula (str "ABABABAB").
Proof.
  apply (proj1 ioc_formula).
  - by apply canonical_check.
  - vm_compute. lia.
Defined.

(** ** Chi-square score *)

Lemma chiForShift_histogram col shift :
  canonical col → 0 <= shift <= 25 →
  fold_left (λ freq ch, jsIncr (Z.rem (charCode0 ch - 65 - shift + 26) 26) freq)
    (codePoints col) (replicate 26 (Some 0))
  = (λ i, Some (observed col shift i)) <$> seqZ 0 26.
Proof.
  intros Hcol Hshift. rewrite codePoints_canonical, fold_left_fmap by done.
  change (λ (a : cells) (x : Z), jsIncr (Z.rem (charCode0 [x] - 65 - shift + 26) 26) a)
    with (λ (a : cells) (x : Z), jsIncr (Z.rem (x - 65 - shift + 26) 26) a).
  rewrite (histogram_cells (λ c, Z.rem (c - 65 - shift + 26) 26)).
  - apply list_fmap_ext. intros _ i _. unfold observed. do 3 f_equal.
    apply filter_ext_Forall. eapply Forall_impl; [exact Hcol|].
    intros c Hc. simpl in Hc.
    rewrite Z.rem_mod_nonneg by lia.
    replace (c - 65 - shift + 26) with (c - 65 - shift + 1 * 26) by lia.
    by rewrite Z.mod_add by lia.
  - eapply Forall_impl; [exact Hcol|]. intros c Hc. simpl in Hc.
    rewrite Z.rem_mod_nonneg by lia.
    apply Z.mod_pos_bound. lia.
Qed.

(** The statement of C1 as the specification writes it, with the divisor
    [max(E_i, 1)], fails on the one-letter column "A": every expected count
    is below 1 there, and the code divides by it, not by 1. *)
Lemma chiForShift_floor_counterexample :
  chiForShift (str "A") 0 ≠ chiSum floorOne (str "A") 0.
Proof.
  intros Heq.
  assert (Hne : PrimFloat.eqb (chiForShift (str "A") 0) (chiSum floorOne (str "A") 0)
                = false) by (by vm_compute).
  rewrite Heq in Hne. vm_compute in Hne. discriminate.
Qed.

(** C1, amended. For a non-empty column of upper-case letters and a shift in
    0..25, [chiForShift] is [Σ (O_i − E_i)^2 / D_i] with [O] the histogram
    of the letters moved back by the shift, [E_i = englishFreq_i × N] and
    [D_i = E_i], except that a zero [E_i] gives [D_i = 1]. *)
Theorem chiForShift_sum (col : jsstring) (shift : Z) :
  canonical col → col ≠ [] → 0 <= shift <= 25 →
  chiForShift col shift = chiSum orOne col shift.
Proof.
  intros Hcol Hne Hshift. unfold chiForShift, chiSum.
  destruct (Z.eqb_spec (Z.of_nat (length col)) 0) as [H0|_].
  { destruct col; [done|simpl in H0; lia]. }
  rewrite chiForShift_histogram by done.
  apply fold_left_ext_in. intros chi i Hi. apply elem_of_seqZ in Hi.
  rewrite list_lookup_fmap, lookup_seqZ_lt by lia. cbn.
  by replace (0 + Z.of_nat (Z.to_nat i)) with i by lia.
Qed.

Lemma chiForShift_sum_witness :
  chiForShift (str "AANNOO") 22 = chiSum orOne (str "AANNOO") 22.
Proof.
  apply (chiForShift_sum (str "AANNOO") 22).
  - by apply canonical_check.
  - done.
  - lia.
Defined.

(** ** Best shift *)

(** Away from NaN, [fixed_ltb] is a strict total order. *)
Lemma fixed_lt_trans a b c :
  fixed_ltb a b = true → fixed_ltb b c = true → fixed_ltb a c = true.
Proof.
  destruct a as [|[]|x], b as [|[]|y], c as [|[]|z]; cbn; try done.
  rewrite !Z.ltb_lt. lia.
Qed.

Lemma fixed_le_trans a b c :
  b ≠ FNaN →
  fixed_ltb b a = false → fixed_ltb c b = false → fixed_ltb c a = false.
Proof.
  destruct a as [|[]|x], b as [|[]|y], c as [|[]|z]; cbn; try done.
  rewrite !Z.ltb_ge. lia.
Qed.

Lemma fixed_lt_le_trans a b c :
  c ≠ FNaN →
  fixed_ltb a b = true → fixed_ltb c b = false → fixed_ltb a c = true.
Proof.
  destruct a as [|[]|x], b as [|[]|y], c as [|[]|z]; cbn; try done.
  rewrite !Z.ltb_lt, Z.ltb_ge. lia.
Qed.

Lemma fixed_lt_not_gt a b : fixed_ltb a b = true → fixed_ltb b a = false.
Proof.
  destruct a as [|[]|x], b as [|[]|y]; cbn; try done.
  rewrite Z.ltb_lt, Z.ltb_ge. lia.
Qed.

Lemma fixed_lt_irrefl a : fixed_ltb a a = false.
Proof. destruct a as [|[]|x]; cbn; try done. apply Z.ltb_irrefl. Qed.

(** The scan of [reduce]: the running best ends as the first entry that no
    entry undercuts. *)
Lemma bestOf_scan (l : list ChiDatum) :
  ∀ init : ChiDatum,
    Forall (λ d, cd_chi d ≠ FNaN) (init :: l) →
    let r := fold_left (λ best d, if fixed_ltb (cd_chi d) (cd_chi best) then d else best)
               l init in
    (∀ x, x ∈ init :: l → fixed_ltb (cd_chi x) (cd_chi r) = false)
    ∧ (r = init
       ∨ ∃ i, l !! i = Some r
              ∧ fixed_ltb (cd_chi r) (cd_chi init) = true
              ∧ ∀ j y, (j < i)%nat → l !! j = Some y →
                       fixed_ltb (cd_chi r) (cd_chi y) = true).
Proof.
  induction l as [|x l IH]; intros init Hnan.
  - cbn. split; [|by left]. intros y Hy. apply list_elem_of_singleton in Hy as ->.
    apply fixed_lt_irrefl.
  - apply Forall_cons in Hnan as [Hinit Hnan].
    pose proof Hnan as Hnan'. apply Forall_cons in Hnan' as [Hx Hl].
    cbn [fold_left]. destruct (fixed_ltb (cd_chi x) (cd_chi init)) eqn:Hlt.
    + destruct (IH x Hnan) as [Hmin Hfirst]. cbn zeta in *.
      set (r := fold_left _ l x) in *.
      assert (Hrx : fixed_ltb (cd_chi x) (cd_chi r) = false).
      { apply Hmin, list_elem_of_here. }
      assert (Hrinit : fixed_ltb (cd_chi r) (cd_chi init) = true).
      { destruct Hfirst as [->|(i & _ & Hri & _)]; [done|].
        by eapply fixed_lt_trans. }
      split.
      * intros y Hy. apply elem_of_cons in Hy as [->|Hy]; [|by apply Hmin].
        by apply fixed_lt_not_gt.
      * right. destruct Hfirst as [Hr|(i & Hi & Hri & Hbefore)].
        -- exists 0%nat. rewrite Hr. split_and!; [done|by rewrite <- Hr|].
           intros j y Hj. lia.
        -- exists (S i). split_and!; [done..|].
           intros [|j] y Hj Hy; [by injection Hy as <-|].
           apply (Hbefore j); [lia|done].
    + destruct (IH init ltac:(by apply Forall_cons)) as [Hmin Hfirst].
      cbn zeta in *. set (r := fold_left _ l init) in *.
      assert (Hrinit : fixed_ltb (cd_chi init) (cd_chi r) = false).
      { apply Hmin, list_elem_of_here. }
      split.
      * intros y Hy. apply elem_of_cons in Hy as [->|Hy]; [done|].
        apply elem_of_cons in Hy as [->|Hy].
        -- by apply (fixed_le_trans _ (cd_chi init)).
        -- apply Hmin. by apply list_elem_of_further.
      * destruct Hfirst as [Hr|(i & Hi & Hri & Hbefore)]; [by left|right].
        exists (S i). split_and!; [done..|].
        intros [|j] y Hj Hy.
        -- injection Hy as <-. by apply (fixed_lt_le_trans _ (cd_chi init)).
        -- apply (Hbefore j); [lia|done].
Qed.

Lemma chiData_lookup col (i : nat) :
  (i < 26)%nat →
  chiData col !! i
  = Some {| cd_shift := Z.of_nat i; cd_chi := chi3 col (Z.of_nat i) |}.
Proof.
  intros Hi. unfold chiData. rewrite list_lookup_fmap, lookup_seqZ_lt by lia.
  cbn. by rewrite Z.add_0_l.
Qed.

Lemma chiData_elem col d :
  d ∈ chiData col ↔ ∃ s, 0 <= s <= 25 ∧ d = {| cd_shift := s; cd_chi := chi3 col s |}.
Proof.
  unfold chiData. rewrite list_elem_of_fmap. split.
  - intros (s & -> & Hs). apply elem_of_seqZ in Hs. exists s. split; [lia|done].
  - intros (s & Hs & ->). exists s. split; [done|]. apply elem_of_seqZ. lia.
Qed.

(** The statement of C6 as the specification writes it fails on the column
    "AANNOO": the scores of the shifts 0 and 22 are 20.9214... and 20.9205...,
    both 20.921 in the rounded profile, so [bestShift] keeps shift 0 although
    shift 22 scores lower. *)
Lemma bestShift_argmin_counterexample :
  ¬ argminShift (str "AANNOO") (bestShift (str "AANNOO")).
Proof.
  intros (_ & Hmin & _).
  specialize (Hmin 22 ltac:(lia)). vm_compute in Hmin. discriminate.
Qed.

(** C6, amended. [bestShift] is the argmin over the shifts 0..25 of the chi
    profile rounded to three decimals, the smallest shift on a tie of the
    rounded values (no entry of the profile being NaN). *)
Theorem bestShift_rounded (col : jsstring) :
  Forall (λ d, cd_chi d ≠ FNaN) (chiData col) →
  argminShiftRounded col (bestShift col).
Proof.
  intros Hnan. unfold bestShift, bestOf.
  pose proof (chiData_lookup col 0 ltac:(lia)) as H0.
  rewrite head_lookup, H0. unfold default, from_option, id.
  set (init := {| cd_shift := Z.of_nat 0; cd_chi := chi3 col (Z.of_nat 0) |}) in *.
  assert (Hinit : init ∈ chiData col) by (by eapply list_elem_of_lookup_2).
  destruct (bestOf_scan (chiData col) init) as [Hmin Hfirst].
  { apply Forall_cons. split; [|done]. rewrite Forall_forall in Hnan. by apply Hnan. }
  cbn zeta in *. set (r := fold_left _ (chiData col) init) in *.
  assert (Hr : ∃ i, (i < 26)%nat ∧ chiData col !! i = Some r
                    ∧ ∀ j y, (j < i)%nat → chiData col !! j = Some y →
                             fixed_ltb (cd_chi r) (cd_chi y) = true).
  { destruct Hfirst as [->|(i & Hi & _ & Hbefore)].
    - exists 0%nat. split_and!; [lia|done|]. intros j y Hj. lia.
    - exists i. split_and!; [|done..]. apply lookup_lt_Some in Hi.
      unfold chiData in Hi. rewrite length_fmap, length_seqZ in Hi. lia. }
  destruct Hr as (i & Hi & Hri & Hbefore).
  rewrite chiData_lookup in Hri by done. injection Hri as Hri.
  rewrite <- Hri in *. cbn [cd_shift cd_chi] in *.
  unfold argminShiftRounded. split_and!; [lia..| |].
  - intros s Hs.
    apply (Hmin {| cd_shift := s; cd_chi := chi3 col s |}).
    apply list_elem_of_further, chiData_elem. by exists s.
  - intros s Hs.
    specialize (Hbefore (Z.to_nat s) {| cd_shift := s; cd_chi := chi3 col s |}).
    apply Hbefore; [lia|]. rewrite chiData_lookup by lia.
    by rewrite Z2Nat.id by lia.
Qed.

Lemma bestShift_rounded_witness : argminShiftRounded (str "AANNOO") 0.
Proof.
  apply (bestShift_rounded (str "AANNOO")).
  apply (bool_decide_unpack _). by vm_compute.
Defined.

(** ** Stable sorting *)

Section stable_sort.
Context {A : Type} (cmp : A → A → comparison).

(** [before] relates every element of the input to the elements after it;
    [R] is the order of the result: strictly first by the comparator, or
    tied and earlier in the input. *)
Context (before R : A → A → Prop).
Hypothesis cmp_Gt : ∀ x y, cmp x y = Gt → R y x.
Hypothesis cmp_not_Gt : ∀ x y, cmp x y ≠ Gt → before x y → R x y.
Hypothesis R_trans : ∀ x y z, R x y → R y z → R x z.

Lemma insertBy_perm x l : insertBy cmp x l ≡ₚ x :: l.
Proof.
  induction l as [|y l IH]; [done|]. cbn.
  destruct (cmp x y); [done..|]. rewrite IH. apply Permutation_swap.
Qed.

Lemma sortBy_perm l : sortBy cmp l ≡ₚ l.
Proof.
  induction l as [|x l IH]; [done|].
  cbn. change (foldr (insertBy cmp) [] l) with (sortBy cmp l).
  by rewrite insertBy_perm, IH.
Qed.

Lemma insertBy_sorted x l :
  Forall (before x) l → StronglySorted R l →
  StronglySorted R (insertBy cmp x l).
Proof.
  induction l as [|y l IH]; intros Hbefore Hsorted.
  - cbn. by repeat constructor.
  - apply Forall_cons in Hbefore as [Hxy Hbefore].
    apply StronglySorted_inv in Hsorted as [Hsorted Hy].
    cbn. destruct (cmp x y) eqn:Hcmp.
    + constructor; [by constructor|].
      assert (R x y) by (apply cmp_not_Gt; [congruence|done]).
      constructor; [done|]. eapply Forall_impl; [exact Hy|]. eauto.
    + constructor; [by constructor|].
      assert (R x y) by (apply cmp_not_Gt; [congruence|done]).
      constructor; [done|]. eapply Forall_impl; [exact Hy|]. eauto.
    + constructor; [by apply IH|].
      rewrite insertBy_perm. constructor; [by apply cmp_Gt|done].
Qed.

Lemma sortBy_sorted l :
  StronglySorted before l → StronglySorted R (sortBy cmp l).
Proof.
  induction 1 as [|x l Hsorted IH Hx]; [constructor|].
  cbn. change (foldr (insertBy cmp) [] l) with (sortBy cmp l).
  apply insertBy_sorted; [|done]. by rewrite sortBy_perm.
Qed.

(** The first element of the result precedes every other element. *)
Lemma sortBy_head l h :
  StronglySorted before l → head (sortBy cmp l) = Some h →
  h ∈ l ∧ ∃ rest, l ≡ₚ h :: rest ∧ Forall (R h) rest.
Proof.
  intros Hl Hh. pose proof (sortBy_sorted l Hl) as Hsorted.
  pose proof (sortBy_perm l) as Hperm.
  destruct (sortBy cmp l) as [|h' rest]; [done|]. injection Hh as ->.
  apply StronglySorted_inv in Hsorted as [_ Hrest]. split.
  - rewrite <- Hperm. apply list_elem_of_here.
  - by exists rest.
Qed.
End stable_sort.

Lemma sortBy_nil_iff {A} (cmp : A → A → comparison) l : sortBy cmp l = [] ↔ l = [].
Proof.
  split; [|by intros ->]. intros H. apply Permutation_nil_r.
  by rewrite <- (sortBy_perm cmp l), H.
Qed.

Lemma StronglySorted_filter {A} (R : A → A → Prop) (P : A → Prop)
    `{!∀ x, Decision (P x)} l :
  StronglySorted R l → StronglySorted R (filter P l).
Proof.
  induction 1 as [|x l Hsorted IH Hx]; [constructor|].
  rewrite filter_cons. case_decide; [|done].
  constructor; [done|]. rewrite Forall_forall in Hx. apply Forall_forall.
  intros y Hy. apply list_elem_of_filter in Hy as [_ Hy]. by apply Hx.
Qed.

(** ** Working key length *)

Lemma NoDup_fst_StronglySorted {K V} (l : list (K * V)) :
  NoDup (l.*1) → StronglySorted (λ a b, a.1 ≠ b.1) l.
Proof.
  induction l as [|e l IH]; [constructor|].
  rewrite fmap_cons, NoDup_cons. intros [Hnotin Hnd].
  constructor; [by apply IH|]. apply Forall_forall. intros e' He' Heq.
  apply Hnotin. rewrite Heq. apply list_elem_of_fmap. by exists e'.
Qed.

Lemma jsOr_nonzero v b : v ≠ 0 → jsOr (Some v) b = Some v.
Proof. intros Hv. unfold jsOr. by destruct (Z.eqb_spec v 0). Qed.

Lemma kasiskiData_elem (kasiskiVotes : gmap Z Z) maxK d :
  d ∈ kasiskiData kasiskiVotes maxK
  ↔ candidate kasiskiVotes maxK (kd_k d) (kd_votes d).
Proof.
  unfold kasiskiData, candidate. rewrite sortBy_perm, list_elem_of_filter, list_elem_of_fmap.
  split.
  - intros [Hk ([k v] & -> & He)]. apply elem_of_map_to_list in He. done.
  - intros [Hv Hk]. split; [done|]. exists (kd_k d, kd_votes d).
    split; [by destruct d|]. by apply elem_of_map_to_list.
Qed.

Lemma kasiskiData_sorted (kasiskiVotes : gmap Z Z) maxK :
  StronglySorted (λ a b, kd_k a < kd_k b) (kasiskiData kasiskiVotes maxK).
Proof.
  unfold kasiskiData.
  apply (sortBy_sorted _ (λ a b, kd_k a ≠ kd_k b)).
  - intros x y Hc. apply Z.compare_gt_iff in Hc. lia.
  - intros x y Hc Hne.
    destruct (Z.compare_spec (kd_k x - kd_k y) 0); [lia..|done].
  - intros x y z. lia.
  - apply StronglySorted_filter.
    apply (StronglySorted_fmap _ (λ a b : Z * Z, a.1 ≠ b.1)); [done|].
    apply NoDup_fst_StronglySorted, NoDup_fst_map_to_list.
Qed.

Lemma fixed_sub_sign_Gt a b :
  fixed_sub_sign a b = Gt → a ≠ FNaN ∧ b ≠ FNaN ∧ fixed_ltb b a = true.
Proof.
  destruct a as [|[]|x], b as [|[]|y]; cbn; try done.
  intros Hc. apply Z.compare_gt_iff in Hc. split_and!; [done..|].
  apply Z.ltb_lt. lia.
Qed.

Lemma fixed_sub_sign_not_Gt a b :
  a ≠ FNaN → b ≠ FNaN → fixed_sub_sign a b ≠ Gt →
  fixed_ltb a b = true ∨ a = b.
Proof.
  destruct a as [|[]|x], b as [|[]|y]; cbn; try done; try (by left); try (by right).
  intros _ _ Hc. destruct (Z.compare_spec (x - y) 0); [right|left|done].
  - f_equal. lia.
  - apply Z.ltb_lt. lia.
Qed.

Lemma StronglySorted_with_Forall {A} (R : A → A → Prop) (P : A → Prop) l :
  StronglySorted R l → Forall P l →
  StronglySorted (λ a b, R a b ∧ P a ∧ P b) l.
Proof.
  induction 1 as [|x l Hsorted IH Hx]; [constructor|].
  intros [Hpx Hpl]%Forall_cons. constructor; [by apply IH|].
  rewrite Forall_forall in Hx, Hpl. apply Forall_forall. intros y Hy.
  split_and!; [by apply Hx|done|by apply Hpl].
Qed.

(** The order of the sweep sorted by IoC: a higher value first and, on a
    tie, the smaller [k]. *)
Lemma sweep_order_trans (x y z : IoCSample) :
  (io_ioc x ≠ FNaN ∧ io_ioc y ≠ FNaN
   ∧ (fixed_ltb (io_ioc y) (io_ioc x) = true
      ∨ (io_ioc y = io_ioc x ∧ io_k x < io_k y))) →
  (io_ioc y ≠ FNaN ∧ io_ioc z ≠ FNaN
   ∧ (fixed_ltb (io_ioc z) (io_ioc y) = true
      ∨ (io_ioc z = io_ioc y ∧ io_k y < io_k z))) →
  io_ioc x ≠ FNaN ∧ io_ioc z ≠ FNaN
  ∧ (fixed_ltb (io_ioc z) (io_ioc x) = true
     ∨ (io_ioc z = io_ioc x ∧ io_k x < io_k z)).
Proof.
  intros (Hx & Hy & H1) (_ & Hz & H2). split_and!; [done..|].
  destruct H1 as [H1|[H1 H1']], H2 as [H2|[H2 H2']].
  - left. by eapply fixed_lt_trans.
  - left. by rewrite H2.
  - left. by rewrite <- H1.
  - right. split; [congruence|lia].
Qed.

(** C3. With no pin, the working key length is (a) the entry of the Kasiski
    vote table restricted to [k <= maxK] with the most votes, the smallest
    [k] on a tie; (b) with no such entry, the entry of the IoC sweep with the
    highest mean IoC, the smallest [k] on a tie; (c) with neither, 1. A pin
    is returned as it is. The vote table has keys from 2 and the sweep lists
    [k] from 1 in increasing order, with numbers for values. *)
Theorem workingK_policy (kasiskiVotes : gmap Z Z) (maxK : Z) (iocData : list IoCSample) :
  (∀ k v, kasiskiVotes !! k = Some v → 2 <= k) →
  StronglySorted (λ a b, io_k a < io_k b) iocData →
  Forall (λ a, 1 <= io_k a ∧ io_ioc a ≠ FNaN) iocData →
  let w := workingK None (kasiskiData kasiskiVotes maxK) iocData in
  ((∃ k v, candidate kasiskiVotes maxK k v) →
   ∃ v, candidate kasiskiVotes maxK w v
        ∧ ∀ k' v', candidate kasiskiVotes maxK k' v' →
                   v' < v ∨ (v' = v ∧ w <= k'))
  ∧ (¬ (∃ k v, candidate kasiskiVotes maxK k v) → iocData ≠ [] →
     ∃ a, a ∈ iocData ∧ w = io_k a
          ∧ ∀ b, b ∈ iocData →
                 fixed_ltb (io_ioc b) (io_ioc a) = true
                 ∨ (io_ioc b = io_ioc a ∧ io_k a <= io_k b))
  ∧ (¬ (∃ k v, candidate kasiskiVotes maxK k v) → iocData = [] → w = 1)
  ∧ ∀ pinned, pinned ≠ 0 →
      workingK (Some pinned) (kasiskiData kasiskiVotes maxK) iocData = pinned.
Proof.
  intros Hkeys Hsweep Hvalues w. subst w. unfold workingK. cbn [jsOr].
  set (kd := kasiskiData kasiskiVotes maxK).
  set (byVotes := sortBy (λ a b, kd_votes b - kd_votes a ?= 0) kd).
  set (byIoc := sortBy (λ a b, fixed_sub_sign (io_ioc b) (io_ioc a)) iocData).
  assert (Hempty : ¬ (∃ k v, candidate kasiskiVotes maxK k v) → byVotes = []).
  { intros Hnone. apply sortBy_nil_iff.
    destruct kd as [|d kd'] eqn:Hkd; [done|]. exfalso. apply Hnone.
    exists (kd_k d), (kd_votes d). apply kasiskiData_elem.
    fold kd. rewrite Hkd. apply list_elem_of_here. }
  split_and!.
  - intros (k0 & v0 & Hcand).
    assert (Hin0 : {| kd_k := k0; kd_votes := v0 |} ∈ kd)
      by (by apply kasiskiData_elem).
    destruct (head byVotes) as [h|] eqn:Hhead.
    2:{ apply head_None in Hhead. apply sortBy_nil_iff in Hhead.
        rewrite Hhead in Hin0. by apply elem_of_nil in Hin0. }
    destruct (sortBy_head (λ a b, kd_votes b - kd_votes a ?= 0)
                (λ a b, kd_k a < kd_k b)
                (λ a b, kd_votes b < kd_votes a
                        ∨ (kd_votes b = kd_votes a ∧ kd_k a < kd_k b)))
      with (l := kd) (h := h) as (Hh & rest & Hperm & Hrest).
    { intros x y Hc. apply Z.compare_gt_iff in Hc. lia. }
    { intros x y Hc Hb.
      destruct (Z.compare_spec (kd_votes y - kd_votes x) 0); [lia..|done]. }
    { intros x y z. lia. }
    { apply kasiskiData_sorted. }
    { done. }
    apply kasiskiData_elem in Hh. pose proof Hh as [Hhv _].
    apply Hkeys in Hhv. cbn [fmap option_fmap option_map].
    rewrite !jsOr_nonzero by lia. cbn [default from_option id].
    exists (kd_votes h). split; [done|].
    intros k' v' Hcand'.
    assert (Hin : {| kd_k := k'; kd_votes := v' |} ∈ h :: rest).
    { rewrite <- Hperm. by apply kasiskiData_elem. }
    apply elem_of_cons in Hin as [<-|Hin]; [cbn; lia|].
    rewrite Forall_forall in Hrest. specialize (Hrest _ Hin). cbn in Hrest. lia.
  - intros Hnone Hne. rewrite (Hempty Hnone). cbn [head fmap option_fmap option_map].
    destruct (head byIoc) as [a|] eqn:Hhead.
    2:{ apply head_None in Hhead. by apply sortBy_nil_iff in Hhead. }
    destruct (sortBy_head (λ a b, fixed_sub_sign (io_ioc b) (io_ioc a))
                (λ a b, io_k a < io_k b
                        ∧ (1 <= io_k a ∧ io_ioc a ≠ FNaN)
                        ∧ (1 <= io_k b ∧ io_ioc b ≠ FNaN))
                (λ a b, io_ioc a ≠ FNaN ∧ io_ioc b ≠ FNaN
                        ∧ (fixed_ltb (io_ioc b) (io_ioc a) = true
                           ∨ (io_ioc b = io_ioc a ∧ io_k a < io_k b))))
      with (l := iocData) (h := a) as (Ha & rest & Hperm & Hrest).
    { intros x y Hc. apply fixed_sub_sign_Gt in Hc as (Hy & Hx & Hlt). by auto. }
    { intros x y Hc (Hk & [_ Hx] & [_ Hy]). split_and!; [done..|].
      destruct (fixed_sub_sign_not_Gt _ _ Hy Hx Hc) as [Hlt|Heq]; auto. }
    { apply sweep_order_trans. }
    { by apply StronglySorted_with_Forall. }
    { done. }
    rewrite Forall_forall in Hvalues. pose proof (Hvalues a Ha) as [Hka _].
    cbn [fmap option_fmap option_map].
    change (jsOr None (Some (io_k a))) with (Some (io_k a)).
    rewrite !jsOr_nonzero by lia. cbn [default from_option id].
    exists a. split_and!; [done..|].
    intros b Hb. rewrite Hperm in Hb.
    apply elem_of_cons in Hb as [->|Hb]; [right; split; [done|lia]|].
    rewrite Forall_forall in Hrest. specialize (Hrest _ Hb). cbn in Hrest.
    destruct Hrest as (_ & _ & [?|[? ?]]); [by left|right; split; [done|lia]].
  - intros Hnone ->. by rewrite (Hempty Hnone).
  - intros pinned Hp. by destruct (Z.eqb_spec pinned 0).
Qed.

Lemma factorVotes_keys (distances : list Z) limit k v :
  factorVotes distances limit !! k = Some v → 2 <= k <= limit.
Proof.
  unfold factorVotes. rewrite factorVotes_fold_lookup, lookup_empty.
  case_decide as Hc; [done|]. intros _. unfold voteCount in Hc.
  destruct (filter _ distances) as [|d ds] eqn:Hf; [done|].
  assert (Hd : d ∈ filter (λ d, 2 <= k <= Z.min limit d ∧ d mod k = 0) distances)
    by (rewrite Hf; apply list_elem_of_here).
  apply list_elem_of_filter in Hd as [[Hk _] _]. lia.
Qed.

(** The tables the engine builds meet the conditions of [workingK_policy]:
    the vote table has its keys in [2, limit], the sweep lists [k] from 1 in
    increasing order. *)
Lemma addVotes_keys (P : Z → Prop) (l : list (Z * Z)) (counts : gmap Z Z) :
  Forall (λ e, P e.1) l →
  map_Forall (λ k _, P k) counts →
  map_Forall (λ k _, P k) (fold_left addVotes l counts).
Proof.
  intros Hl. revert counts.
  induction Hl as [|e l He Hl IH]; intros counts Hcounts; cbn; [done|].
  apply IH. unfold addVotes. by apply map_Forall_insert_2.
Qed.

Lemma kasiskiVotes_keys repeats pairwise limitFactors k v :
  kasiskiVotes repeats pairwise limitFactors !! k = Some v → 2 <= k <= limitFactors.
Proof.
  unfold kasiskiVotes.
  assert (Hgen : ∀ counts : gmap Z Z,
            map_Forall (λ k _, 2 <= k <= limitFactors) counts →
            map_Forall (λ k _, 2 <= k <= limitFactors)
              (fold_left
                 (λ counts r,
                    let dists := distancesFromPositions (positions r) (negb pairwise) in
                    let v := factorVotes dists limitFactors in
                    fold_left addVotes (map_to_list v) counts)
                 repeats counts)).
  { induction repeats as [|r repeats IH]; intros counts Hcounts; cbn; [done|].
    apply IH. apply addVotes_keys; [|done].
    apply Forall_forall. intros [k' v'] Hin. apply elem_of_map_to_list in Hin.
    by eapply factorVotes_keys. }
  intros Hk. exact (Hgen ∅ (map_Forall_empty _) k v Hk).
Qed.

Lemma seqZ_sorted m n : StronglySorted Z.lt (seqZ m n).
Proof.
  unfold seqZ. generalize (Z.to_nat n). intros len.
  apply (StronglySorted_fmap _ lt); [intros x y; lia|].
  generalize 0%nat. induction len as [|len IH]; intros start; cbn; [constructor|].
  constructor; [apply IH|]. apply Forall_seq. intros i Hi. lia.
Qed.

Lemma iocSweep_keys s maxK :
  StronglySorted (λ a b, io_k a < io_k b) (iocSweep s maxK)
  ∧ Forall (λ a, 1 <= io_k a) (iocSweep s maxK).
Proof.
  unfold iocSweep. split.
  - apply (StronglySorted_fmap _ Z.lt); [done|]. apply seqZ_sorted.
  - apply Forall_fmap, Forall_seqZ. intros k Hk. cbn. lia.
Qed.

Lemma workingK_policy_witness :
  let stream := str "ABCXYZABCQRSABC" in
  let votes := kasiskiVotes (findRepeats stream 3) true 30 in
  let w := workingK None (kasiskiData votes 10) (iocSweep stream 10) in
  ∃ v, candidate votes 10 w v
       ∧ ∀ k' v', candidate votes 10 k' v' → v' < v ∨ (v' = v ∧ w <= k').
Proof.
  intros stream votes.
  refine (proj1 (workingK_policy votes 10 (iocSweep stream 10) _ _ _) _).
  - intros k v Hk. apply kasiskiVotes_keys in Hk. lia.
  - apply iocSweep_keys.
  - apply (bool_decide_unpack _). by vm_compute.
  - exists 2, 3. unfold candidate. split; [by vm_compute|lia].
Defined.

(** The fallback of the specification's example: an empty vote table and a
    sweep whose highest mean IoC is at [k = 5]. *)
Example workingK_fallback_5 : workingK None (kasiskiData ∅ 30) sampleSweep = 5.
Proof. reflexivity. Qed.

(** ** Repeated n-grams *)

Section grouping.
(** [f i] is the gram that starts at position [i]. *)
Context (f : nat → jsstring).
Local Abbreviation entryOk := (entryOk f).

Lemma entryOk_other seen i e :
  entryOk seen e → e.1 ≠ f i → entryOk (seen ++ [i]) e.
Proof.
  intros [Hpos Hne] Hkey. split; [|done].
  rewrite filter_app, filter_cons, filter_nil, decide_False by done.
  by rewrite app_nil_r.
Qed.

Lemma entryOk_same seen i e :
  entryOk seen e → e.1 = f i → entryOk (seen ++ [i]) (e.1, e.2 ++ [i]).
Proof.
  intros [Hpos Hne] Hkey. split; cbn.
  - rewrite filter_app, filter_cons, filter_nil, decide_True by done.
    by rewrite <- Hpos.
  - by destruct (e.2).
Qed.

Lemma pushPos_keys g i (m : list (jsstring * list nat)) :
  (pushPos g i m).*1 = if decide (g ∈ m.*1) then m.*1 else m.*1 ++ [g].
Proof.
  induction m as [|e m IH]; cbn.
  - rewrite decide_False; [done|]. apply not_elem_of_nil.
  - destruct (decide (e.1 = g)) as [Heq|Hne]; cbn.
    + rewrite decide_True; [done|]. rewrite Heq. apply list_elem_of_here.
    + rewrite IH. destruct (decide (g ∈ m.*1)) as [Hin|Hnin].
      * rewrite decide_True; [done|]. by apply list_elem_of_further.
      * rewrite decide_False; [done|].
        intros [?|?]%elem_of_cons; [congruence|done].
Qed.

Lemma pushPos_entryOk seen i (m : list (jsstring * list nat)) :
  Forall (entryOk seen) m → NoDup (m.*1) →
  (f i ∈ m.*1 ∨ filter (λ j, f j = f i) seen = []) →
  Forall (entryOk (seen ++ [i])) (pushPos (f i) i m).
Proof.
  induction m as [|e m IH]; intros Hok Hnd Hkey; cbn.
  - destruct Hkey as [Hin|Hnone]; [by apply elem_of_nil in Hin|].
    apply Forall_cons. split; [|done]. split; cbn; [|done].
    by rewrite filter_app, Hnone, filter_cons, filter_nil, decide_True.
  - apply Forall_cons in Hok as [He Hok].
    rewrite fmap_cons in Hnd. apply NoDup_cons in Hnd as [Hnotin Hnd].
    destruct (decide (e.1 = f i)) as [Heq|Hne].
    + apply Forall_cons. split; [by apply entryOk_same|].
      rewrite Forall_forall in Hok. apply Forall_forall. intros e' He'.
      apply entryOk_other; [by apply Hok|]. intros Heq'. apply Hnotin.
      rewrite Heq, <- Heq'. apply list_elem_of_fmap. by exists e'.
    + apply Forall_cons. split; [by apply entryOk_other|].
      apply IH; [done..|]. destruct Hkey as [Hin|Hnone]; [left|by right].
      rewrite fmap_cons in Hin.
      apply elem_of_cons in Hin as [Heq|Hin]; [congruence|done].
Qed.

Lemma pushPos_firstPos g i (m : list (jsstring * list nat)) :
  Forall (λ e, e.2 ≠ []) m →
  (λ e, firstPos e.2) <$> pushPos g i m
  = if decide (g ∈ m.*1) then (λ e, firstPos e.2) <$> m
    else ((λ e, firstPos e.2) <$> m) ++ [i].
Proof.
  induction m as [|e m IH]; intros Hne; cbn.
  - rewrite decide_False; [done|]. apply not_elem_of_nil.
  - apply Forall_cons in Hne as [He Hne].
    destruct (decide (e.1 = g)) as [Heq|Hkey]; cbn.
    + rewrite decide_True by (rewrite Heq; apply list_elem_of_here).
      f_equal. by destruct (e.2).
    + rewrite IH by done. destruct (decide (g ∈ m.*1)) as [Hin|Hnin].
      * rewrite decide_True; [done|]. by apply list_elem_of_further.
      * rewrite decide_False; [done|].
        intros [?|?]%elem_of_cons; [congruence|done].
Qed.

(** The object after the positions [0 .. k-1]: one entry per gram, with
    its positions, in the order in which the grams were first seen. *)
Lemma grouping_invariant k :
  let m := fold_left (λ map i, pushPos (f i) i map) (seq 0 k) [] in
  NoDup (m.*1)
  ∧ Forall (entryOk (seq 0 k)) m
  ∧ (∀ j, (j < k)%nat → f j ∈ m.*1)
  ∧ StronglySorted lt ((λ e, firstPos e.2) <$> m)
  ∧ Forall (λ p, (p < k)%nat) ((λ e, firstPos e.2) <$> m).
Proof.
  induction k as [|k IH]; cbn zeta.
  - cbn. split_and!; [constructor|constructor|lia|constructor|constructor].
  - rewrite seq_S, fold_left_app. cbn [fold_left]. rewrite Nat.add_0_l.
    cbn zeta in IH. set (m := fold_left _ (seq 0 k) []) in *.
    destruct IH as (Hnd & Hok & Hall & Hsorted & Hbound).
    assert (Hne : Forall (λ e : jsstring * list nat, e.2 ≠ []) m).
    { eapply Forall_impl; [exact Hok|]. by intros e [_ ?]. }
    assert (Hkey : f k ∈ m.*1 ∨ filter (λ j, f j = f k) (seq 0 k) = []).
    { destruct (filter (λ j, f j = f k) (seq 0 k)) as [|j js] eqn:Hf; [by right|].
      left. assert (Hj : j ∈ filter (λ j, f j = f k) (seq 0 k))
        by (rewrite Hf; apply list_elem_of_here).
      apply list_elem_of_filter in Hj as [Hfj Hj]. apply elem_of_seq in Hj.
      rewrite <- Hfj. apply Hall. lia. }
    split_and!.
    + rewrite pushPos_keys. case_decide as Hin; [done|].
      apply NoDup_app. split_and!; [done| |apply NoDup_singleton].
      intros g Hg ->%list_elem_of_singleton. done.
    + by apply pushPos_entryOk.
    + intros j Hj. rewrite pushPos_keys.
      destruct (decide (j = k)) as [->|Hjk].
      * case_decide; [done|]. apply elem_of_app. right. apply list_elem_of_here.
      * assert (f j ∈ m.*1) by (apply Hall; lia).
        case_decide; [done|]. apply elem_of_app. by left.
    + rewrite pushPos_firstPos by done. case_decide; [done|].
      apply StronglySorted_app_2; [|done|repeat constructor].
      intros p q Hp ->%list_elem_of_singleton.
      rewrite Forall_forall in Hbound. by apply Hbound.
    + rewrite pushPos_firstPos by done. case_decide.
      * eapply Forall_impl; [exact Hbound|]. intros p Hp. simpl in Hp. lia.
      * apply Forall_app. split.
        -- eapply Forall_impl; [exact Hbound|]. intros p Hp. simpl in Hp. lia.
        -- repeat constructor.
Qed.
End grouping.

Lemma filter_seq_lt a b :
  filter (λ i, (i < b)%nat) (seq 0 a) = seq 0 (a `min` b).
Proof.
  induction a as [|a IH]; [done|].
  rewrite seq_S, filter_app, IH, filter_cons, filter_nil, Nat.add_0_l.
  case_decide.
  - replace (S a `min` b)%nat with (S a) by lia.
    replace (a `min` b)%nat with a by lia. by rewrite seq_S.
  - rewrite app_nil_r. f_equal. lia.
Qed.

(** The positions the loop visits are the start positions of the substrings
    of length [n]. *)
Lemma occurrences_range s n g :
  occurrences s n g
  = filter (λ i, slice s i n = g) (seq 0 (S (length s) - n)).
Proof.
  unfold occurrences.
  replace (S (length s) - n)%nat with (S (length s) `min` (S (length s) - n))%nat by lia.
  rewrite <- filter_seq_lt, list_filter_filter.
  apply list_filter_iff. intros i. intuition lia.
Qed.

Lemma StronglySorted_fmap_lt {A} (h : A → nat) (l : list A) :
  StronglySorted lt (h <$> l) → StronglySorted (λ a b, (h a < h b)%nat) l.
Proof.
  induction l as [|x l IH]; [constructor|].
  rewrite fmap_cons. intros [Hx Hl]%StronglySorted_cons.
  constructor; [by apply IH|]. by rewrite Forall_fmap in Hx.
Qed.

Lemma NoDup_fst_filter {K V} (P : K * V → Prop) `{!∀ e, Decision (P e)}
    (l : list (K * V)) :
  NoDup (l.*1) → NoDup ((filter P l).*1).
Proof.
  induction l as [|e l IH]; [done|].
  rewrite fmap_cons, NoDup_cons, filter_cons. intros [Hnotin Hnd].
  case_decide; [|by apply IH].
  rewrite fmap_cons. apply NoDup_cons. split; [|by apply IH].
  intros (e' & Heq & He')%list_elem_of_fmap. apply Hnotin.
  apply list_elem_of_filter in He' as [_ He'].
  apply list_elem_of_fmap. by exists e'.
Qed.

Lemma gramMap_elem s n g pos :
  (g, pos) ∈ gramMap s n ↔ pos = occurrences s n g ∧ pos ≠ [].
Proof.
  rewrite occurrences_range.
  destruct (grouping_invariant (λ i, slice s i n) (S (length s) - n))
    as (Hnd & Hok & Hall & _ & _).
  change (fold_left _ _ _) with (gramMap s n) in *.
  rewrite Forall_forall in Hok. split.
  - intros Hin. exact (Hok _ Hin).
  - intros [Hpos Hne]. destruct pos as [|j js]; [done|].
    assert (Hj : j ∈ filter (λ i, slice s i n = g) (seq 0 (S (length s) - n)))
      by (rewrite <- Hpos; apply list_elem_of_here).
    apply list_elem_of_filter in Hj as [Hg Hj]. apply elem_of_seq in Hj.
    assert (Hkey : g ∈ (gramMap s n).*1) by (rewrite <- Hg; apply Hall; lia).
    apply list_elem_of_fmap in Hkey as ([g' pos'] & -> & Hin).
    destruct (Hok _ Hin) as [Hpos' _]. cbn [fst snd] in *.
    by rewrite Hpos, <- Hpos'.
Qed.

(** C8. On a stream of upper-case letters, [findRepeats(stream, n)] holds
    exactly the substrings of length [n] that occur at least twice, each once
    and with the increasing list of its 0-based start positions; the table
    is ordered by occurrence count, largest first, and among equal counts by
    first occurrence; it is empty when [n] exceeds the stream's length. *)
Theorem findRepeats_table (s : jsstring) (n : nat) :
  canonical s →
  (∀ g pos,
     {| gram := g; positions := pos |} ∈ findRepeats s n
     ↔ pos = occurrences s n g ∧ (2 <= length pos)%nat)
  ∧ NoDup (gram <$> findRepeats s n)
  ∧ StronglySorted repeatOrder (findRepeats s n)
  ∧ ((length s < n)%nat → findRepeats s n = []).
Proof.
  intros _. unfold findRepeats.
  set (cmp := λ a b : jsstring * list nat,
                Z.of_nat (length b.2) - Z.of_nat (length a.2) ?= 0).
  set (kept := filter (λ e : jsstring * list nat, (2 <= length e.2)%nat) (gramMap s n)).
  destruct (grouping_invariant (λ i, slice s i n) (S (length s) - n))
    as (Hnd & _ & _ & Hsorted & _).
  change (fold_left _ _ _) with (gramMap s n) in *.
  split_and!.
  - intros g pos. rewrite list_elem_of_fmap. split.
    + intros ([g' pos'] & Heq & Hin). injection Heq as -> ->.
      rewrite sortBy_perm in Hin. apply list_elem_of_filter in Hin as [Hlen Hin].
      apply gramMap_elem in Hin as [Hpos _]. done.
    + intros [Hpos Hlen]. exists (g, pos). split; [done|].
      rewrite sortBy_perm. apply list_elem_of_filter. split; [done|].
      apply gramMap_elem. split; [done|].
      destruct pos; [simpl in Hlen; lia|done].
  - rewrite <- list_fmap_compose.
    change (gram ∘ _) with (fst : jsstring * list nat → jsstring).
    rewrite sortBy_perm. by apply NoDup_fst_filter.
  - apply (StronglySorted_fmap _
             (λ a b : jsstring * list nat,
                (length b.2 < length a.2)%nat
                ∨ (length a.2 = length b.2 ∧ (firstPos a.2 < firstPos b.2)%nat)));
      [done|].
    apply (sortBy_sorted _ (λ a b, (firstPos a.2 < firstPos b.2)%nat)).
    + intros x y Hc. unfold cmp in Hc. apply Z.compare_gt_iff in Hc. lia.
    + intros x y Hc Hb. unfold cmp in Hc.
      destruct (Z.compare_spec (Z.of_nat (length y.2) - Z.of_nat (length x.2)) 0);
        [lia..|done].
    + intros x y z. lia.
    + apply StronglySorted_filter. by apply StronglySorted_fmap_lt.
  - intros Hlen. unfold kept, gramMap.
    by replace (S (length s) - n)%nat with 0%nat by lia.
Qed.

Lemma findRepeats_table_witness :
  {| gram := str "AB"; positions := [0; 2; 4; 6]%nat |} ∈ findRepeats (str "ABABABAB") 2.
Proof.
  apply (proj1 (findRepeats_table (str "ABABABAB") 2 ltac:(by apply canonical_check))).
  split; [reflexivity|simpl; lia].
Defined.

(** ** The worked examples of the specification *)

Example splitColumns_abab :
  splitColumns (str "ABABABAB") 2 = [str "AAAA"; str "BBBB"].
Proof. reflexivity. Qed.

Example findRepeats_abab :
  findRepeats (str "ABABABAB") 2
  = [ {| gram := str "AB"; positions := [0; 2; 4; 6]%nat |};
      {| gram := str "BA"; positions := [1; 3; 5]%nat |} ].
Proof. reflexivity. Qed.

Example decodePartial_sample :
  decodePartial (str "Ifmmp, Xpsme!") [Some 1] 1 = str "HELLO, WORLD!".
Proof. reflexivity. Qed.

Example iocSweep_abab :
  iocSweep (str "ABABABAB") 2
  = [ {| io_k := 1; io_ioc := Fix 42857 |}; {| io_k := 2; io_ioc := Fix 100000 |} ].
Proof. by vm_compute. Qed.

(** [toFixed] rounds the exact binary value: 1.0005 is stored as
    1.000499999999999989..., so three decimals give 1.000, and a true tie
    such as 2.5 goes up. *)
Example toFixed_rounding :
  toFixed 3 1.0005 = Fix 1000 ∧ toFixed 0 2.5 = Fix 3 ∧ toFixed 3 (-2.5) = Fix (-2500).
Proof. by vm_compute. Qed.

Example distances_successive :
  distancesFromPositions [0; 2; 4; 6]%nat true = [2; 2; 2].
Proof. reflexivity. Qed.

Example distances_pairwise :
  distancesFromPositions [0; 2; 4; 6]%nat false = [2; 4; 6; 2; 4; 2].
Proof. reflexivity. Qed.

Example workingK_sample :
  workingK None
    (kasiskiData (kasiskiVotes (findRepeats (str "ABCXYZABCQRSABC") 3) true 30) 10)
    (iocSweep (str "ABCXYZABCQRSABC") 10) = 2.
Proof. by vm_compute. Qed.

Example bestShift_empty_column : bestShift [] = 0.
Proof. by vm_compute. Qed.

(** * Further properties of the engine *)

(** ** Key state *)

Lemma wrap26 v : Z.rem (Z.rem v 26 + 26) 26 = v mod 26.
Proof.
  pose proof (Z.rem_bound_abs v 26 ltac:(lia)) as Hb.
  rewrite Z.rem_mod_nonneg by lia.
  assert (Hmod : Z.rem v 26 mod 26 = v mod 26).
  { destruct (Z.le_gt_cases 0 v) as [Hv|Hv].
    - rewrite Z.rem_mod_nonneg by lia. apply Z.mod_mod. lia.
    - pose proof (Z.rem_opp_l' v 26) as Ho.
      assert (Hr : Z.rem v 26 = - ((- v) mod 26)).
      { rewrite <- (Z.rem_mod_nonneg (- v) 26) by lia. lia. }
      rewrite Hr. Z.to_euclidean_division_equations. lia. }
  rewrite <- Hmod. replace (Z.rem v 26 + 26) with (Z.rem v 26 + 1 * 26) by lia.
  apply Z.mod_add. lia.
Qed.

Lemma letterToShift_letter c :
  isLetter c = true → letterToShift c = upperLetter c - 65 ∧ 0 <= letterToShift c <= 25.
Proof.
  intros Hc. pose proof (upperLetter_range c Hc) as Hu. unfold letterToShift.
  rewrite Z.rem_mod_nonneg by lia.
  replace (upperLetter c - 65 + 26) with (upperLetter c - 65 + 1 * 26) by lia.
  rewrite Z.mod_add, Z.mod_small by lia. lia.
Qed.

(** X1. [shiftToLetter] and [letterToShift] are inverse up to the wrap: any
    integer shift shows as the upper-case letter of its residue modulo 26,
    and a letter of either case gives a shift in 0..25 that shows as that
    letter in upper case. *)
Theorem shift_letter_roundtrip :
  (∀ v : Z,
     shiftToLetter (Some v) = 65 + v mod 26
     ∧ letterToShift (shiftToLetter (Some v)) = v mod 26)
  ∧ (∀ c : Z, isLetter c = true →
       0 <= letterToShift c <= 25
       ∧ shiftToLetter (Some (letterToShift c)) = upperLetter c).
Proof.
  assert (Hshow : ∀ v, shiftToLetter (Some v) = 65 + v mod 26).
  { intros v. unfold shiftToLetter, fromCharCode. rewrite wrap26.
    pose proof (Z.mod_pos_bound v 26 ltac:(lia)). apply Z.mod_small. lia. }
  split.
  - intros v. split; [done|]. rewrite Hshow.
    pose proof (Z.mod_pos_bound v 26 ltac:(lia)) as Hv.
    assert (Hl : isLetter (65 + v mod 26) = true) by (apply isLetter_range; lia).
    destruct (letterToShift_letter _ Hl) as [-> _].
    unfold upperLetter. assert (isLowerAZ (65 + v mod 26) = false) as -> by zbool.
    lia.
  - intros c Hc. destruct (letterToShift_letter c Hc) as [Heq Hr].
    split; [done|]. rewrite Hshow, Z.mod_small by lia. lia.
Qed.

(** X2. [setShiftFor] on a slot of the key state stores the value wrapped
    into 0..25, whatever integer it is given, keeps the length and every
    other slot, and the key string shows the letter of the wrapped shift at
    that slot. *)
Theorem setShiftFor_slot (prev : list (option Z)) (index : nat) (value : Z) :
  (index < length prev)%nat →
  length (setShiftFor prev index value) = length prev
  ∧ setShiftFor prev index value !! index = Some (Some (value mod 26))
  ∧ (∀ j, j ≠ index → setShiftFor prev index value !! j = prev !! j)
  ∧ keyString (setShiftFor prev index value) !! index = Some (65 + value mod 26).
Proof.
  intros Hi. unfold setShiftFor. rewrite wrap26.
  destruct (Nat.ltb_spec index (length prev)); [|lia].
  assert (Hslot : <[index := Some (value mod 26)]> prev !! index
                  = Some (Some (value mod 26)))
    by (by apply list_lookup_insert_eq).
  split_and!.
  - apply length_insert.
  - done.
  - intros j Hj. by apply list_lookup_insert_ne.
  - unfold keyString. rewrite list_lookup_fmap, Hslot. cbn.
    unfold fromCharCode. rewrite wrap26.
    pose proof (Z.mod_pos_bound value 26 ltac:(lia)).
    rewrite Z.mod_mod by lia. f_equal. apply Z.mod_small. lia.
Qed.

Lemma setShiftFor_slot_witness :
  setShiftFor [Some 1; None; Some 3] 1 (-1) !! 1%nat = Some (Some 25).
Proof.
  exact (proj1 (proj2 (setShiftFor_slot [Some 1; None; Some 3] 1 (-1) ltac:(simpl; lia)))).
Defined.

Lemma manualLetters_range input c :
  c ∈ manualLetters input → 65 <= c <= 90 ∧ isLetter c = true.
Proof.
  unfold manualLetters. intros (c0 & -> & Hc0)%list_elem_of_fmap.
  apply list_elem_of_filter in Hc0 as [Hc0 _].
  pose proof (upperLetter_range c0 Hc0). split; [done|].
  apply isLetter_range. lia.
Qed.

Lemma manualLetters_cycle input i :
  manualLetters input ≠ [] →
  ∃ c, manualLetters input !! (i mod length (manualLetters input))%nat = Some c
       ∧ 65 <= c <= 90 ∧ letterToShift c = c - 65.
Proof.
  intros Hne.
  assert (Hlt : (i mod length (manualLetters input) < length (manualLetters input))%nat).
  { apply Nat.mod_upper_bound. by destruct (manualLetters input). }
  destruct (lookup_lt_is_Some_2 _ _ Hlt) as [c Hc]. exists c.
  destruct (manualLetters_range input c) as [Hr Hl];
    [by eapply list_elem_of_lookup_2|].
  split; [done|]. split; [done|].
  destruct (letterToShift_letter c Hl) as [-> _].
  unfold upperLetter. assert (isLowerAZ c = false) as -> by zbool. done.
Qed.

Lemma applyManualKey_letters input k prev :
  manualLetters input ≠ [] →
  applyManualKey input k prev
  = (λ i, Some (letterToShift
                  (default 0 (manualLetters input
                                !! (i mod length (manualLetters input))%nat))))
      <$> seq 0 (Z.to_nat k).
Proof.
  intros Hne. unfold applyManualKey.
  case_bool_decide as Hin; [by subst|].
  by rewrite bool_decide_eq_false_2.
Qed.

(** X3. Every mutator of the key state keeps its invariant, a determined
    slot holding a shift in 0..25: [setShiftFor] for any index and value,
    [applyManualKey] for any input, the resize that follows the working key
    length, and the reset. *)
Theorem keyState_invariant (prev : list (option Z)) :
  wellFormedKey prev →
  (∀ index value, wellFormedKey (setShiftFor prev index value))
  ∧ (∀ input k, wellFormedKey (applyManualKey input k prev))
  ∧ (∀ k, wellFormedKey (resizeKeyShifts prev k))
  ∧ (∀ k, wellFormedKey (resetKeyShifts k)).
Proof.
  intros Hprev. unfold wellFormedKey in *. split_and!.
  - intros index value. unfold setShiftFor. rewrite wrap26.
    pose proof (Z.mod_pos_bound value 26 ltac:(lia)) as Hv.
    assert (Hnew : ∀ s, Some (value mod 26) = Some s → 0 <= s <= 25)
      by (intros s [= <-]; lia).
    destruct (Nat.ltb_spec index (length prev)).
    + rewrite Forall_forall in Hprev. apply Forall_forall. intros slot Hslot.
      apply list_elem_of_lookup in Hslot as [j Hj].
      destruct (decide (j = index)) as [->|Hne].
      * rewrite list_lookup_insert_eq in Hj by done. by injection Hj as <-.
      * rewrite list_lookup_insert_ne in Hj by done.
        apply Hprev. by eapply list_elem_of_lookup_2.
    + rewrite !Forall_app. split_and!;
        [done| |by apply Forall_cons_2; [|apply Forall_nil_2]].
      apply Forall_forall. intros slot ->%elem_of_replicate_inv. done.
  - intros input k. destruct (decide (manualLetters input = [])) as [Hnil|Hne].
    + unfold applyManualKey. rewrite (bool_decide_eq_true_2 _ Hnil).
      by case_bool_decide.
    + rewrite applyManualKey_letters by done. apply Forall_fmap, Forall_forall.
      intros i _ s [= <-].
      destruct (manualLetters_cycle input i Hne) as (c & -> & Hc & Hshift).
      cbn [default from_option id]. lia.
  - intros k. unfold resizeKeyShifts. apply Forall_fmap, Forall_forall.
    intros i _ s Hs. cbn in Hs.
    destruct (prev !! i) as [slot|] eqn:Hi; [|done]. cbn in Hs. subst slot.
    rewrite Forall_forall in Hprev. apply (Hprev (Some s)); [|done].
    by eapply list_elem_of_lookup_2.
  - intros k. unfold resetKeyShifts. apply Forall_forall.
    intros slot ->%elem_of_replicate_inv. done.
Qed.

Lemma keyState_invariant_witness :
  wellFormedKey (setShiftFor [Some 3; None] 5 100).
Proof.
  apply (keyState_invariant [Some 3; None]).
  unfold wellFormedKey.
  repeat first [apply Forall_nil_2 | apply Forall_cons_2];
    intros s Hs; inversion Hs; lia.
Defined.

(** X4. The resize of the key state to [k] slots keeps the first [k] slots
    and pads with undetermined ones; resizing twice to the same length
    changes nothing more. *)
Theorem resizeKeyShifts_shape (prev : list (option Z)) (k : Z) :
  resizeKeyShifts prev k
  = take (Z.to_nat k) prev ++ replicate (Z.to_nat k - length prev) None
  ∧ resizeKeyShifts (resizeKeyShifts prev k) k = resizeKeyShifts prev k.
Proof.
  assert (Hlook : ∀ ks : list (option Z), ∀ i,
            resizeKeyShifts ks k !! i
            = if decide (i < Z.to_nat k)%nat then Some (default None (ks !! i))
              else None).
  { intros ks i. unfold resizeKeyShifts. rewrite list_lookup_fmap.
    case_decide.
    - by rewrite lookup_seq_lt.
    - by rewrite lookup_seq_ge by lia. }
  split.
  - apply list_eq. intros i. rewrite Hlook.
    destruct (decide (i < length prev)%nat) as [Hi|Hi].
    + destruct (lookup_lt_is_Some_2 _ _ Hi) as [slot Hslot].
      case_decide.
      * rewrite lookup_app_l by (rewrite length_take; lia).
        by rewrite lookup_take_lt, Hslot by lia.
      * rewrite lookup_ge_None_2; [done|].
        rewrite length_app, length_take, length_replicate. lia.
    + rewrite (lookup_ge_None_2 prev) by lia. cbn.
      rewrite lookup_app_r by (rewrite length_take; lia).
      rewrite length_take. case_decide.
      * rewrite lookup_replicate_2; [done|lia].
      * rewrite lookup_ge_None_2; [done|]. rewrite length_replicate. lia.
  - apply list_eq. intros i. rewrite !Hlook. by case_decide.
Qed.

Lemma resizeKeyShifts_lookup (ks : list (option Z)) k i :
  (i < Z.to_nat k)%nat →
  resizeKeyShifts ks k !! i = Some (default None (ks !! i)).
Proof.
  intros Hi. unfold resizeKeyShifts.
  by rewrite list_lookup_fmap, lookup_seq_lt.
Qed.

(** X5. The decoder gives the same text for a key state and for that key
    state resized to [k] slots: the slots past [k] are never read, and a
    missing slot reads as an undetermined one. *)
Theorem decodePartial_resize (raw : jsstring) (ks : list (option Z)) (k : Z) :
  decodePartial raw (resizeKeyShifts ks k) k = decodePartial raw ks k.
Proof.
  destruct (decide (0 < k)) as [Hk|Hk].
  - rewrite !decodePartial_units by done. apply mapLetters_ext.
    intros j c. unfold decodeLetter.
    rewrite resizeKeyShifts_lookup by (apply Nat.mod_upper_bound; lia).
    by destruct (ks !! (j mod Z.to_nat k)%nat) as [[s|]|].
  - unfold decodePartial. destruct (Z.leb_spec k 0); [|lia].
    by rewrite !orb_true_r.
Qed.

Lemma mapLetters_fmap (h : Z → Z) j s :
  mapLetters (λ _ c, h c) j s = (λ c, if isLetter c then h c else c) <$> s.
Proof.
  revert j. induction s as [|c s IH]; intros j; [done|].
  cbn. destruct (isLetter c); by rewrite IH.
Qed.

(** X6. With every slot undetermined, as after the reset, the preview
    renders every letter as the placeholder and keeps every other character,
    whatever the working key length is. *)
Theorem preview_reset (raw : jsstring) (slots workingK : Z) :
  preview raw (resetKeyShifts slots) workingK
  = (λ c, if isLetter c then placeholder else c) <$> raw.
Proof.
  unfold preview. rewrite decodePartial_units by lia.
  rewrite <- (mapLetters_fmap (λ _, placeholder) 0).
  apply mapLetters_ext. intros j c. unfold decodeLetter, resetKeyShifts.
  destruct (replicate _ _ !! _) as [slot|] eqn:Hslot; [|done].
  by apply lookup_replicate in Hslot as [-> _].
Qed.

(** X7. [applyManualKey] leaves the key state alone when the input holds no
    letter; otherwise the new state has [k] slots and its key string is the
    letters of the input, in upper case, cycled over the [k] slots; when
    there are [k] letters the key string is those letters. *)
Theorem applyManualKey_keyString (input : jsstring) (k : Z) (prev : list (option Z)) :
  (manualLetters input = [] → applyManualKey input k prev = prev)
  ∧ (manualLetters input ≠ [] →
     length (applyManualKey input k prev) = Z.to_nat k
     ∧ keyString (applyManualKey input k prev)
       = (λ i, default 0 (manualLetters input
                            !! (i mod length (manualLetters input))%nat))
           <$> seq 0 (Z.to_nat k)
     ∧ (length (manualLetters input) = Z.to_nat k →
        keyString (applyManualKey input k prev) = manualLetters input)).
Proof.
  split.
  - intros Hnil. unfold applyManualKey. rewrite (bool_decide_eq_true_2 _ Hnil).
    by case_bool_decide.
  - intros Hne. rewrite applyManualKey_letters by done.
    assert (Hkey : keyString
                     ((λ i, Some (letterToShift
                                    (default 0 (manualLetters input
                                       !! (i mod length (manualLetters input))%nat))))
                        <$> seq 0 (Z.to_nat k))
                   = (λ i, default 0 (manualLetters input
                                        !! (i mod length (manualLetters input))%nat))
                       <$> seq 0 (Z.to_nat k)).
    { unfold keyString. rewrite <- list_fmap_compose. apply list_fmap_ext.
      intros _ i _. cbn [compose].
      destruct (manualLetters_cycle input i Hne) as (c & -> & Hc & Hshift).
      cbn [default from_option id]. unfold shiftToLetter, fromCharCode.
      rewrite wrap26, Hshift, (Z.mod_small (c - 65)) by lia.
      rewrite Z.mod_small; lia. }
    split_and!.
    + by rewrite length_fmap, length_seq.
    + done.
    + intros Hlen. rewrite Hkey, <- Hlen. apply list_eq. intros i.
      rewrite list_lookup_fmap.
      destruct (decide (i < length (manualLetters input))%nat) as [Hi|Hi].
      * rewrite lookup_seq_lt by done. cbn. rewrite Nat.mod_small by done.
        by destruct (lookup_lt_is_Some_2 _ _ Hi) as [c ->].
      * rewrite lookup_seq_ge by lia. by rewrite lookup_ge_None_2 by lia.
Qed.

Lemma applyManualKey_keyString_witness :
  keyString (applyManualKey (str "Ja-ck") 4 []) = str "JACK".
Proof.
  apply (proj2 (applyManualKey_keyString (str "Ja-ck") 4 [])); [done|reflexivity].
Defined.

(** Decoding undoes the encryption by the same shift sequence, letter by
    letter. *)
Lemma decode_encode_units (key : list Z) (plain : jsstring) :
  key ≠ [] → Forall (λ s, 0 <= s <= 25) key →
  ∀ j, mapLetters (decodeLetter (Some <$> key) (Z.of_nat (length key))) j
         (mapLetters (encodeLetter key) j plain)
       = mapLetters (λ _ c, upperLetter c) j plain.
Proof.
  intros Hne Hkey. induction plain as [|c plain IH]; intros j; [done|].
  cbn [mapLetters]. destruct (isLetter c) eqn:Hc.
  - cbn [mapLetters]. rewrite encodeLetter_letter, IH by done. f_equal.
    unfold decodeLetter, encodeLetter. rewrite Nat2Z.id, list_lookup_fmap.
    assert (Hj : (j mod length key < length key)%nat).
    { apply Nat.mod_upper_bound. by destruct key. }
    destruct (lookup_lt_is_Some_2 key _ Hj) as [s Hs]. rewrite Hs. cbn.
    apply encode_decode_arith; [done|].
    rewrite Forall_forall in Hkey. apply Hkey. by eapply list_elem_of_lookup_2.
  - cbn [mapLetters]. by rewrite Hc, IH.
Qed.

(** X8. A manual key with at least one letter decrypts what its shifts
    encrypt: for a working key length of at least 1, the preview of the text
    encrypted per column with the shifts that [applyManualKey] stores, under
    the state it stores, is the plaintext with its letters in upper case. *)
Theorem manualKey_roundtrip (input plain : jsstring) (k : Z) (prev : list (option Z)) :
  manualLetters input ≠ [] → 1 <= k →
  let ks := applyManualKey input k prev in
  preview (encode (default 0 <$> ks) plain) ks k = upperText plain.
Proof.
  intros Hne Hk ks. subst ks. unfold preview. rewrite Z.max_r by lia.
  rewrite applyManualKey_letters by done.
  set (key := (λ i, letterToShift
                      (default 0 (manualLetters input
                                    !! (i mod length (manualLetters input))%nat)))
                <$> seq 0 (Z.to_nat k)).
  assert (Hks : (λ i, Some (letterToShift
                              (default 0 (manualLetters input
                                 !! (i mod length (manualLetters input))%nat))))
                  <$> seq 0 (Z.to_nat k) = Some <$> key).
  { unfold key. by rewrite <- list_fmap_compose. }
  rewrite Hks.
  assert (Hid : default 0 <$> (Some <$> key) = key).
  { rewrite <- list_fmap_compose. apply list_fmap_id. }
  rewrite Hid.
  assert (Hlen : length key = Z.to_nat k)
    by (unfold key; by rewrite length_fmap, length_seq).
  assert (Hkne : key ≠ []) by (intros Hnil; rewrite Hnil in Hlen; simpl in Hlen; lia).
  assert (Hrange : Forall (λ s, 0 <= s <= 25) key).
  { unfold key. apply Forall_fmap, Forall_forall. intros i _. cbn.
    destruct (manualLetters_cycle input i Hne) as (c & -> & Hc & Hshift).
    cbn [default from_option id]. lia. }
  rewrite decodePartial_units by lia.
  replace k with (Z.of_nat (length key)) at 1 by lia.
  unfold encode. rewrite decode_encode_units by done.
  apply mapLetters_fmap.
Qed.

Lemma manualKey_roundtrip_witness :
  preview
    (encode (default 0 <$> applyManualKey (str "Jack") 4 []) (str "Attack at dawn!"))
    (applyManualKey (str "Jack") 4 []) 4
  = upperText (str "Attack at dawn!").
Proof.
  apply (manualKey_roundtrip (str "Jack") (str "Attack at dawn!") 4 []); [done|lia].
Defined.

(** ** The sanitized stream *)

Lemma filter_upper_letters (s : jsstring) :
  filter (λ c, 65 <= c <= 90) (upperLetter <$> s)
  = upperLetter <$> filter (λ c, isLetter c = true) s.
Proof.
  induction s as [|c s IH]; [done|].
  rewrite fmap_cons, !filter_cons, IH.
  destruct (decide (isLetter c = true)) as [Hc|Hc].
  - rewrite decide_True by (by apply upperLetter_range). done.
  - rewrite decide_False; [done|]. intros Hup. apply Hc.
    apply isLetter_range. unfold upperLetter, isLowerAZ in Hup.
    destruct (Z.leb_spec 97 c), (Z.leb_spec c 122); cbn in Hup; lia.
Qed.

Lemma canonical_upper (s : jsstring) : canonical s → upperLetter <$> s = s.
Proof.
  intros Hs. induction Hs as [|c s Hc Hs IH]; [done|].
  rewrite fmap_cons, IH. f_equal. unfold upperLetter, isLowerAZ.
  destruct (Z.leb_spec 97 c); [lia|done].
Qed.

Lemma canonical_ascii (s : jsstring) : canonical s → Forall (λ c, 0 <= c < 128) s.
Proof.
  unfold canonical. intros Hs. eapply Forall_impl; [done|]. cbn. lia.
Qed.

Lemma normalizeAZ_canonical up (s : jsstring) : canonical (normalizeAZ up s).
Proof.
  unfold canonical, normalizeAZ. apply Forall_forall. intros c Hc.
  by apply list_elem_of_filter in Hc as [Hc _].
Qed.

Lemma normalizeAZ_letters up (raw : jsstring) :
  asciiUpperCase up → Forall (λ c, 0 <= c < 128) raw →
  normalizeAZ up raw = manualLetters raw.
Proof.
  intros Hup Hraw. unfold normalizeAZ, manualLetters.
  rewrite Hup by done. apply filter_upper_letters.
Qed.

(** X9. The sanitized stream holds A-Z only, whatever the input is; a stream
    of A-Z is left as it is, so sanitizing twice is sanitizing once. *)
Theorem normalizeAZ_idempotent (up : jsstring → jsstring) :
  asciiUpperCase up →
  ∀ s, canonical (normalizeAZ up s)
       ∧ (canonical s → normalizeAZ up s = s)
       ∧ normalizeAZ up (normalizeAZ up s) = normalizeAZ up s.
Proof.
  intros Hup.
  assert (Hfix : ∀ s, canonical s → normalizeAZ up s = s).
  { intros s Hs. unfold normalizeAZ.
    rewrite Hup, canonical_upper by (done || by apply canonical_ascii).
    induction Hs as [|c s Hc Hs IH]; [done|].
    by rewrite filter_cons, decide_True, IH. }
  intros s. split_and!; [apply normalizeAZ_canonical|apply Hfix|].
  apply Hfix, normalizeAZ_canonical.
Qed.

Lemma normalizeAZ_idempotent_witness :
  canonical (normalizeAZ (fmap upperLetter) (str "Hi, you!"))
  ∧ (canonical (str "Hi, you!")
     → normalizeAZ (fmap upperLetter) (str "Hi, you!") = str "Hi, you!")
  ∧ normalizeAZ (fmap upperLetter) (normalizeAZ (fmap upperLetter) (str "Hi, you!"))
    = normalizeAZ (fmap upperLetter) (str "Hi, you!").
Proof.
  apply (normalizeAZ_idempotent (fmap upperLetter)). by intros s _.
Defined.

(** X10. On a text of ASCII characters the sanitized stream is the letters
    of the text in their order, in upper case: the same cleaning as the one
    of a manual key, although the two apply [toUpperCase] and the filter in
    opposite orders. Its length is the number of letters of the text. *)
Theorem normalizeAZ_ascii (up : jsstring → jsstring) (raw : jsstring) :
  asciiUpperCase up → Forall (λ c, 0 <= c < 128) raw →
  normalizeAZ up raw = upperLetter <$> filter (λ c, isLetter c = true) raw
  ∧ normalizeAZ up raw = manualLetters raw
  ∧ length (normalizeAZ up raw) = letterIndex raw (length raw)
  ∧ (length (normalizeAZ up raw) <= length raw)%nat.
Proof.
  intros Hup Hraw. rewrite normalizeAZ_letters by done. unfold manualLetters.
  split_and!; [done|done| |].
  - unfold letterIndex. by rewrite length_fmap, firstn_all.
  - rewrite length_fmap. apply length_filter.
Qed.

Lemma normalizeAZ_ascii_witness :
  normalizeAZ (fmap upperLetter) (str "Hi, you!") = str "HIYOU".
Proof.
  apply (normalizeAZ_ascii (fmap upperLetter) (str "Hi, you!")).
  - by intros s _.
  - apply (bool_decide_unpack _). by vm_compute.
Defined.

Lemma filter_lookup_count {A} (P : A → Prop) `{!∀ x, Decision (P x)}
    (l : list A) (p : nat) (x : A) :
  l !! p = Some x → P x →
  filter P l !! length (filter P (take p l)) = Some x.
Proof.
  intros Hl Hx.
  transitivity (filter P (take p l ++ x :: drop (S p) l)
                  !! length (filter P (take p l)));
    [by rewrite take_drop_middle|].
  rewrite filter_app, lookup_app_r by done.
  by rewrite Nat.sub_diag, filter_cons, decide_True.
Qed.

(** X11. The preview and the analysis agree on the column of a letter. For an
    ASCII text and [k >= 1], let [j] letters precede the letter [c] at
    position [p] of the text. Then the sanitized stream holds [c] in upper
    case at index [j], [splitColumns] puts it in column [j mod k] at row
    [j / k], and the decoder replaces position [p] by [c] decoded with that
    column's slot. *)
Theorem preview_column_alignment (up : jsstring → jsstring) (raw : jsstring)
    (ks : list (option Z)) (k p : nat) (c : Z) :
  asciiUpperCase up → Forall (λ c, 0 <= c < 128) raw → (0 < k)%nat →
  wellFormedKey ks → raw !! p = Some c → isLetter c = true →
  let j := letterIndex raw p in
  let sanitized := normalizeAZ up raw in
  sanitized !! j = Some (upperLetter c)
  ∧ (∃ col, splitColumns sanitized k !! (j mod k)%nat = Some col
            ∧ col !! (j / k)%nat = Some (upperLetter c))
  ∧ decodePartial raw ks (Z.of_nat k) !! p
    = Some (match ks !! (j mod k)%nat with
            | Some (Some s) => 65 + (upperLetter c - 65 - s) mod 26
            | _ => placeholder
            end).
Proof.
  intros Hup Hraw Hk Hks Hp Hc j sanitized.
  assert (Hj : sanitized !! j = Some (upperLetter c)).
  { unfold sanitized. rewrite normalizeAZ_letters by done.
    unfold manualLetters. rewrite list_lookup_fmap.
    unfold j, letterIndex. by rewrite (filter_lookup_count _ raw p c). }
  split_and!; [done| |].
  - exists (column sanitized k (j mod k)).
    assert (Hlt : (j mod k < k)%nat) by (apply Nat.mod_upper_bound; lia).
    split; [by apply splitColumns_lookup|].
    rewrite column_lookup by done.
    replace (j / k * k + j mod k)%nat with j; [done|].
    rewrite (Nat.div_mod_eq j k) at 1. lia.
  - rewrite decodePartial_units by lia.
    rewrite mapLetters_lookup, Hp. cbn. rewrite Hc.
    f_equal. unfold decodeLetter. rewrite Nat2Z.id. fold j.
    destruct (ks !! (j mod k)%nat) as [[s|]|] eqn:Hslot; [|done|done].
    pose proof (upperLetter_range c Hc) as Hu.
    assert (Hs : 0 <= s <= 25).
    { unfold wellFormedKey in Hks. rewrite Forall_forall in Hks.
      apply (Hks (Some s)); [by eapply list_elem_of_lookup_2|done]. }
    unfold fromCharCode. rewrite Z.rem_mod_nonneg by lia.
    replace (upperLetter c - 65 - s + 26) with (upperLetter c - 65 - s + 1 * 26)
      by lia.
    rewrite Z.mod_add by lia.
    pose proof (Z.mod_pos_bound (upperLetter c - 65 - s) 26).
    rewrite (Z.mod_small (_ + 65)) by lia. lia.
Qed.

Lemma preview_column_alignment_witness :
  let raw := str "Hi, you!" in
  let j := letterIndex raw 4 in
  let sanitized := normalizeAZ (fmap upperLetter) raw in
  sanitized !! j = Some (upperLetter 121)
  ∧ (∃ col, splitColumns sanitized 2 !! (j mod 2)%nat = Some col
            ∧ col !! (j / 2)%nat = Some (upperLetter 121))
  ∧ decodePartial raw [Some 3; None] (Z.of_nat 2) !! 4%nat
    = Some (match [Some 3; None] !! (j mod 2)%nat with
            | Some (Some s) => 65 + (upperLetter 121 - 65 - s) mod 26
            | _ => placeholder
            end).
Proof.
  apply (preview_column_alignment (fmap upperLetter) (str "Hi, you!")
           [Some 3; None] 2 4 121).
  - by intros s _.
  - apply (bool_decide_unpack _). by vm_compute.
  - lia.
  - apply Forall_cons_2; [intros s [= <-]; lia|].
    apply Forall_cons_2; [done|apply Forall_nil_2].
  - reflexivity.
  - reflexivity.
Defined.

(** ** Distances between occurrences *)

Lemma StronglySorted_lookup_lt {A} (R : A → A → Prop) (l : list A) i j a b :
  StronglySorted R l → (i < j)%nat → l !! i = Some a → l !! j = Some b → R a b.
Proof.
  intros Hl. revert i j. induction Hl as [|x l Hl IH Hx]; intros i j Hij Hi Hj.
  - done.
  - destruct j as [|j]; [lia|]. cbn in Hj. destruct i as [|i].
    + cbn in Hi. injection Hi as ->. rewrite Forall_forall in Hx.
      apply Hx. by eapply list_elem_of_lookup_2.
    + cbn in Hi. apply (IH i j); [lia|done|done].
Qed.

Lemma successiveDistances_cons2 a b rest :
  successiveDistances (a :: b :: rest)
  = (Z.of_nat b - Z.of_nat a) :: successiveDistances (b :: rest).
Proof. done. Qed.

Lemma pairwiseDistances_elem (positions : list nat) (d : Z) :
  d ∈ pairwiseDistances positions
  ↔ ∃ i j a b, (i < j)%nat ∧ positions !! i = Some a ∧ positions !! j = Some b
               ∧ d = Z.of_nat b - Z.of_nat a.
Proof.
  induction positions as [|a rest IH]; cbn [pairwiseDistances].
  - split; [by intros ?%elem_of_nil|]. by intros (i & j & a & b & _ & ? & _).
  - rewrite elem_of_app, list_elem_of_fmap, IH. split.
    + intros [(b & -> & Hb)|(i & j & a' & b & Hij & Hi & Hj & ->)].
      * apply list_elem_of_lookup_1 in Hb as [j Hj].
        exists 0%nat, (S j), a, b. split_and!; [lia|done|done|done].
      * exists (S i), (S j), a', b. split_and!; [lia|done|done|done].
    + intros (i & j & a' & b & Hij & Hi & Hj & ->).
      destruct j as [|j]; [lia|]. cbn in Hj. destruct i as [|i].
      * cbn in Hi. injection Hi as ->. left. exists b.
        split; [done|by eapply list_elem_of_lookup_2].
      * cbn in Hi. right. exists i, j, a', b. split_and!; [lia|done|done|done].
Qed.

Lemma successive_pairwise (positions : list nat) (d : Z) :
  d ∈ successiveDistances positions → d ∈ pairwiseDistances positions.
Proof.
  induction positions as [|a [|b rest] IH]; [done|done|].
  rewrite successiveDistances_cons2. intros [->|Hd]%elem_of_cons.
  - cbn [pairwiseDistances]. rewrite fmap_cons. apply list_elem_of_here.
  - change (pairwiseDistances (a :: b :: rest))
      with (((λ b0, Z.of_nat b0 - Z.of_nat a) <$> b :: rest)
              ++ pairwiseDistances (b :: rest)).
    apply elem_of_app. right. by apply IH.
Qed.

(** X12. The number of distances of [n] positions: [n - 1] in the
    successive mode and [n (n - 1) / 2] in the pairwise mode; every
    successive distance is also a pairwise one. *)
Theorem distances_count (positions : list nat) :
  length (distancesFromPositions positions true) = (length positions - 1)%nat
  ∧ (2 * length (distancesFromPositions positions false)
     = length positions * (length positions - 1))%nat
  ∧ ∀ d, d ∈ distancesFromPositions positions true
         → d ∈ distancesFromPositions positions false.
Proof.
  cbn [distancesFromPositions]. split_and!.
  - induction positions as [|a [|b rest] IH]; [done|done|].
    rewrite successiveDistances_cons2. cbn [length] in *. lia.
  - induction positions as [|a rest IH]; [done|].
    cbn [pairwiseDistances]. rewrite length_app, length_fmap. cbn [length].
    rewrite Nat.sub_succ, Nat.sub_0_r. nia.
  - apply successive_pairwise.
Qed.

(** X13. For positions in strictly increasing order, as [findRepeats] gives
    them, every distance of either mode is at least 1 and at most the span
    from the first position to the last, and the successive distances add up
    to that span. *)
Theorem distances_span (positions : list nat) (successiveOnly : bool) :
  StronglySorted lt positions →
  let span := Z.of_nat (default 0%nat (last positions))
              - Z.of_nat (default 0%nat (head positions)) in
  Forall (λ d, 1 <= d <= span) (distancesFromPositions positions successiveOnly)
  ∧ foldr Z.add 0 (distancesFromPositions positions true) = span.
Proof.
  intros Hsorted span. split.
  - apply Forall_forall. intros d Hd.
    assert (Hp : d ∈ pairwiseDistances positions).
    { destruct successiveOnly; [by apply successive_pairwise|done]. }
    apply pairwiseDistances_elem in Hp as (i & j & a & b & Hij & Hi & Hj & ->).
    pose proof (StronglySorted_lookup_lt _ _ _ _ _ _ Hsorted Hij Hi Hj) as Hab.
    assert (Hfirst : (default 0 (head positions) <= a)%nat).
    { destruct i as [|i].
      - by rewrite head_lookup, Hi.
      - destruct positions as [|h rest]; [done|]. cbn.
        assert (h < a)%nat; [|lia].
        eapply (StronglySorted_lookup_lt _ _ 0 (S i)); [done|lia|done|done]. }
    assert (Hlast : (b <= default 0 (last positions))%nat).
    { pose proof (lookup_lt_Some _ _ _ Hj) as Hlt.
      destruct (decide (S j = length positions)) as [Hend|Hend].
      - rewrite last_lookup, <- Hend. cbn. by rewrite Hj.
      - destruct (last positions) as [z|] eqn:Hz.
        + cbn. rewrite last_lookup in Hz.
          assert (b < z)%nat; [|lia].
          eapply (StronglySorted_lookup_lt _ _ j (Nat.pred (length positions)));
            [done|lia|done|done].
        + apply last_None in Hz. by subst. }
    unfold span. lia.
  - cbn [distancesFromPositions]. unfold span. clear span Hsorted.
    induction positions as [|a [|b rest] IH]; [done|cbn; lia|].
    rewrite successiveDistances_cons2. cbn [foldr]. rewrite IH.
    cbn [head default from_option id]. rewrite last_cons_cons. lia.
Qed.

Lemma distances_span_witness :
  let span := Z.of_nat (default 0%nat (last [2; 7; 19]%nat))
              - Z.of_nat (default 0%nat (head [2; 7; 19]%nat)) in
  Forall (λ d, 1 <= d <= span) (distancesFromPositions [2; 7; 19]%nat false)
  ∧ foldr Z.add 0 (distancesFromPositions [2; 7; 19]%nat true) = span.
Proof.
  apply (distances_span [2; 7; 19]%nat false).
  repeat first [apply SSorted_nil | apply SSorted_cons
               | apply Forall_nil_2 | apply Forall_cons_2 | lia].
Defined.

(** ** Properties of the votes *)

Lemma factorVotes_lookup (distances : list Z) (limit f : Z) :
  factorVotes distances limit !! f
  = if decide (voteCount distances limit f = 0%nat) then None
    else Some (Z.of_nat (voteCount distances limit f)).
Proof.
  unfold factorVotes. rewrite factorVotes_fold_lookup, lookup_empty.
  by case_decide.
Qed.

Lemma factorVotes_default (distances : list Z) (limit f : Z) :
  default 0 (factorVotes distances limit !! f)
  = Z.of_nat (voteCount distances limit f).
Proof.
  rewrite factorVotes_lookup. case_decide as Hc; cbn; [by rewrite Hc|done].
Qed.

(** X14. The votes do not depend on the order of the distances, and the
    votes of two lists of distances put together are the sums of their
    votes, factor by factor. *)
Theorem factorVotes_order (limit : Z) :
  (∀ distances distances' : list Z,
     distances ≡ₚ distances' →
     factorVotes distances limit = factorVotes distances' limit)
  ∧ (∀ (d1 d2 : list Z) (f : Z),
       default 0 (factorVotes (d1 ++ d2) limit !! f)
       = default 0 (factorVotes d1 limit !! f)
         + default 0 (factorVotes d2 limit !! f)).
Proof.
  split.
  - intros distances distances' Hperm. apply map_eq. intros f.
    assert (Hcount : voteCount distances limit f = voteCount distances' limit f)
      by (unfold voteCount; by rewrite Hperm).
    by rewrite !factorVotes_lookup, Hcount.
  - intros d1 d2 f. rewrite !factorVotes_default. unfold voteCount.
    rewrite filter_app, length_app. lia.
Qed.

(** X15. An entry [f -> v] of the vote table has [f] in [2, limit], at
    least one vote and at most one per distance, and some distance that is a
    multiple of [f] and not below it. *)
Theorem factorVotes_bounds (distances : list Z) (limit f v : Z) :
  factorVotes distances limit !! f = Some v →
  2 <= f <= limit
  ∧ 1 <= v <= Z.of_nat (length distances)
  ∧ ∃ d, d ∈ distances ∧ f <= d ∧ (f | d).
Proof.
  rewrite factorVotes_lookup. case_decide as Hc; [done|]. intros [= <-].
  unfold voteCount in *.
  pose proof (length_filter
                (λ d, 2 <= f <= Z.min limit d ∧ d mod f = 0) distances) as Hle.
  destruct (filter _ distances) as [|d rest] eqn:Hfilter; [done|].
  assert (Hd : d ∈ filter (λ d, 2 <= f <= Z.min limit d ∧ d mod f = 0) distances)
    by (rewrite Hfilter; apply list_elem_of_here).
  apply list_elem_of_filter in Hd as [[Hf Hmod] Hd].
  cbn [length] in *. split; [lia|]. split; [lia|].
  exists d. split_and!; [done|lia|]. apply Z.mod_divide; [lia|done].
Qed.

Lemma factorVotes_bounds_witness :
  2 <= 4 <= 30
  ∧ 1 <= 2 <= Z.of_nat (length [12; 9; 8])
  ∧ ∃ d, d ∈ [12; 9; 8] ∧ 4 <= d ∧ (4 | d).
Proof. apply (factorVotes_bounds [12; 9; 8] 30 4 2). by vm_compute. Defined.

Lemma length_filter_impl {A} (P Q : A → Prop) `{!∀ x, Decision (P x)}
    `{!∀ x, Decision (Q x)} (l : list A) :
  (∀ x, P x → Q x) → (length (filter P l) <= length (filter Q l))%nat.
Proof.
  intros Himpl. induction l as [|x l IH]; [done|].
  rewrite !filter_cons.
  destruct (decide (P x)) as [HP|HP].
  - rewrite decide_True by auto. cbn. lia.
  - destruct (decide (Q x)); cbn; lia.
Qed.

(** X16. A factor never has fewer votes than one of its multiples: when [f]
    is at least 2 and divides [f'], every distance that votes for [f'] votes
    for [f] too. *)
Theorem factorVotes_divisor (distances : list Z) (limit f f' : Z) :
  2 <= f → (f | f') →
  default 0 (factorVotes distances limit !! f')
  <= default 0 (factorVotes distances limit !! f).
Proof.
  intros Hf Hdiv. rewrite !factorVotes_default. unfold voteCount.
  apply inj_le, length_filter_impl. intros d [Hrange Hmod].
  assert (Hle : f <= f') by (apply Z.divide_pos_le; [lia|done]).
  split; [lia|].
  apply Z.mod_divide; [lia|].
  apply Z.divide_trans with f'; [done|]. apply Z.mod_divide; [lia|done].
Qed.

Lemma factorVotes_divisor_witness :
  default 0 (factorVotes [12; 9; 8] 30 !! 6)
  <= default 0 (factorVotes [12; 9; 8] 30 !! 3).
Proof.
  apply (factorVotes_divisor [12; 9; 8] 30 3 6); [lia|]. by exists 2.
Defined.

(** X17. A factor in [2, limit] that divides every distance, as the key
    length does for the repeats it causes, gets one vote from each of them,
    and no factor gets more. *)
Theorem factorVotes_common (distances : list Z) (limit f : Z) :
  distances ≠ [] → 2 <= f <= limit →
  Forall (λ d, 0 < d ∧ (f | d)) distances →
  factorVotes distances limit !! f = Some (Z.of_nat (length distances))
  ∧ ∀ f' v, factorVotes distances limit !! f' = Some v
            → v <= Z.of_nat (length distances).
Proof.
  intros Hne Hf Hall.
  assert (Hcount : voteCount distances limit f = length distances).
  { unfold voteCount. clear Hne.
    induction Hall as [|d ds [Hd Hdiv] Hall IH]; [done|].
    rewrite filter_cons, decide_True; [cbn; by rewrite IH|].
    assert (f <= d) by (apply Z.divide_pos_le; [lia|done]).
    split; [lia|]. apply Z.mod_divide; [lia|done]. }
  split.
  - rewrite factorVotes_lookup, Hcount. rewrite decide_False; [done|].
    by destruct distances.
  - intros f' v. rewrite factorVotes_lookup. case_decide; [done|].
    intros [= <-]. apply inj_le. unfold voteCount. apply length_filter.
Qed.

Lemma factorVotes_common_witness :
  factorVotes [12; 18; 30] 30 !! 6 = Some (Z.of_nat (length [12; 18; 30]))
  ∧ ∀ f' v, factorVotes [12; 18; 30] 30 !! f' = Some v
            → v <= Z.of_nat (length [12; 18; 30]).
Proof.
  apply (factorVotes_common [12; 18; 30] 30 6); [done|lia|].
  repeat first [apply Forall_nil_2 | apply Forall_cons_2];
    (split; [lia|]); [by exists 2|by exists 3|by exists 5].
Defined.

(** ** The Kasiski vote table *)

Lemma addVotes_fold_lookup (l : list (Z * Z)) (counts : gmap Z Z) (f : Z) :
  NoDup (l.*1) →
  fold_left addVotes l counts !! f
  = match (list_to_map l : gmap Z Z) !! f with
    | Some c => Some (default 0 (counts !! f) + c)
    | None => counts !! f
    end.
Proof.
  revert counts. induction l as [|[k c] l IH]; intros counts Hnd; [done|].
  rewrite fmap_cons, NoDup_cons in Hnd. destruct Hnd as [Hk Hnd].
  cbn [fold_left]. rewrite IH by done. rewrite list_to_map_cons.
  unfold addVotes. cbn [fst snd].
  destruct (decide (f = k)) as [->|Hne].
  - rewrite (not_elem_of_list_to_map_1 _ _ Hk), !lookup_insert_eq. done.
  - by rewrite !lookup_insert_ne.
Qed.

Lemma voteCount_app (d1 d2 : list Z) limit f :
  voteCount (d1 ++ d2) limit f
  = (voteCount d1 limit f + voteCount d2 limit f)%nat.
Proof. unfold voteCount. by rewrite filter_app, length_app. Qed.

Lemma kasiskiVotes_fold_lookup repeats pairwise limit (counts : gmap Z Z) f :
  fold_left
    (λ counts r,
       let dists := distancesFromPositions (positions r) (negb pairwise) in
       let v := factorVotes dists limit in
       fold_left addVotes (map_to_list v) counts)
    repeats counts !! f
  = if decide (voteCount (repeatDistances repeats pairwise) limit f = 0%nat)
    then counts !! f
    else Some (default 0 (counts !! f)
               + Z.of_nat (voteCount (repeatDistances repeats pairwise) limit f)).
Proof.
  revert counts. induction repeats as [|r repeats IH]; intros counts; [done|].
  cbn [fold_left]. rewrite IH. cbv zeta.
  rewrite addVotes_fold_lookup by apply NoDup_fst_map_to_list.
  rewrite list_to_map_to_list, factorVotes_lookup.
  assert (Hcons : repeatDistances (r :: repeats) pairwise
                  = distancesFromPositions (positions r) (negb pairwise)
                    ++ repeatDistances repeats pairwise) by done.
  rewrite Hcons, voteCount_app.
  repeat case_decide; cbn [default from_option id]; try lia; try done;
    f_equal; lia.
Qed.

Lemma kasiskiVotes_lookup repeats pairwise limit f :
  kasiskiVotes repeats pairwise limit !! f
  = if decide (voteCount (repeatDistances repeats pairwise) limit f = 0%nat)
    then None
    else Some (Z.of_nat (voteCount (repeatDistances repeats pairwise) limit f)).
Proof.
  unfold kasiskiVotes. rewrite kasiskiVotes_fold_lookup, lookup_empty.
  by case_decide.
Qed.

(** X18. The Kasiski table is the vote table of all the distances of all
    the repeats taken together: adding up the per-repeat tables factor by
    factor loses nothing and adds nothing. *)
Theorem kasiskiVotes_pooled (repeats : list NGramOccurrence) (pairwise : bool)
    (limitFactors : Z) :
  kasiskiVotes repeats pairwise limitFactors
  = factorVotes (repeatDistances repeats pairwise) limitFactors.
Proof.
  apply map_eq. intros f.
  by rewrite kasiskiVotes_lookup, factorVotes_lookup.
Qed.

Lemma seq_sorted (a n : nat) : StronglySorted lt (seq a n).
Proof.
  revert a. induction n as [|n IH]; intros a; [constructor|].
  cbn [seq]. constructor; [apply IH|].
  apply Forall_forall. intros x Hx%elem_of_seq. lia.
Qed.

Lemma occurrences_sorted s n g : StronglySorted lt (occurrences s n g).
Proof. unfold occurrences. apply StronglySorted_filter, seq_sorted. Qed.

Lemma findRepeats_elem s n r :
  r ∈ findRepeats s n →
  positions r = occurrences s n (gram r) ∧ (2 <= length (positions r))%nat.
Proof.
  unfold findRepeats. intros ([g pos] & -> & Hin)%list_elem_of_fmap.
  rewrite sortBy_perm in Hin. apply list_elem_of_filter in Hin as [Hlen Hin].
  apply gramMap_elem in Hin as [Hpos _]. done.
Qed.

Lemma repeatDistances_elem repeats pairwise d :
  d ∈ repeatDistances repeats pairwise →
  ∃ r, r ∈ repeats ∧ d ∈ pairwiseDistances (positions r).
Proof.
  unfold repeatDistances. induction repeats as [|r repeats IH].
  - by intros ?%elem_of_nil.
  - rewrite fmap_cons. cbn [concat]. intros [Hd|Hd]%elem_of_app.
    + exists r. split; [apply list_elem_of_here|].
      destruct pairwise; cbn in Hd; [done|by apply successive_pairwise].
    + destruct (IH Hd) as (r' & Hr' & Hd'). exists r'.
      split; [by apply list_elem_of_further|done].
Qed.

(** X19. Every entry of the Kasiski table of a stream is backed by the
    stream: a factor [f] with votes lies in [2, limitFactors] and divides
    the distance between two positions [i < j] at which the same [n]
    characters stand. *)
Theorem kasiskiVotes_sound (s : jsstring) (n : nat) (pairwise : bool)
    (limitFactors f v : Z) :
  kasiskiVotes (findRepeats s n) pairwise limitFactors !! f = Some v →
  2 <= f <= limitFactors
  ∧ 1 <= v
  ∧ ∃ i j : nat, (i < j)%nat ∧ (j + n <= length s)%nat
                 ∧ slice s i n = slice s j n
                 ∧ (f | Z.of_nat j - Z.of_nat i).
Proof.
  rewrite kasiskiVotes_lookup.
  case_decide as Hc; [done|]. intros [= <-]. unfold voteCount in *.
  destruct (filter _ (repeatDistances _ _)) as [|d rest] eqn:Hfilter; [done|].
  assert (Hd : d ∈ filter (λ d, 2 <= f <= Z.min limitFactors d ∧ d mod f = 0)
                     (repeatDistances (findRepeats s n) pairwise))
    by (rewrite Hfilter; apply list_elem_of_here).
  apply list_elem_of_filter in Hd as [[Hf Hmod] Hd].
  apply repeatDistances_elem in Hd as (r & Hr & Hd).
  apply findRepeats_elem in Hr as [Hpos _]. rewrite Hpos in Hd.
  apply pairwiseDistances_elem in Hd as (i & j & a & b & Hij & Hi & Hj & ->).
  pose proof (StronglySorted_lookup_lt _ _ _ _ _ _
                (occurrences_sorted s n (gram r)) Hij Hi Hj) as Hab.
  apply list_elem_of_lookup_2, list_elem_of_filter in Hi as [[_ Ha] _].
  apply list_elem_of_lookup_2, list_elem_of_filter in Hj as [[Hbn Hb] _].
  cbn [length]. split; [lia|]. split; [lia|].
  exists a, b. split_and!; [done|done|by rewrite Ha, Hb|].
  apply Z.mod_divide; [lia|done].
Qed.

Lemma kasiskiVotes_sound_witness :
  2 <= 4 <= 30
  ∧ 1 <= 1
  ∧ ∃ i j : nat, (i < j)%nat ∧ (j + 3 <= length (str "ABCDABC"))%nat
                 ∧ slice (str "ABCDABC") i 3 = slice (str "ABCDABC") j 3
                 ∧ (4 | Z.of_nat j - Z.of_nat i).
Proof.
  apply (kasiskiVotes_sound (str "ABCDABC") 3 false 30 4 1). by vm_compute.
Defined.

(** ** Shape of the columns *)

(** X20. For [k >= 1], column [i] of an [N]-character stream has
    [(N + k - 1 - i) / k] characters: the columns are balanced, a column is
    never longer than an earlier one, and two columns differ by one
    character at most. *)
Theorem splitColumns_balanced (s : jsstring) (k i : nat) :
  (i < k)%nat →
  ∃ col, splitColumns s k !! i = Some col
         ∧ length col = ((length s + k - 1 - i) / k)%nat
         ∧ ∀ i' col', (i <= i')%nat → splitColumns s k !! i' = Some col' →
                      (length col' <= length col <= length col' + 1)%nat.
Proof.
  assert (Hlen : ∀ i, (i < k)%nat →
            length (column s k i) = ((length s + k - 1 - i) / k)%nat).
  { clear i. intros i Hi.
    assert (Hiff : ∀ m, (m < length (column s k i))%nat
                        ↔ (m < (length s + k - 1 - i) / k)%nat).
    { intros m. rewrite <- lookup_lt_is_Some, column_lookup by done.
      rewrite lookup_lt_is_Some. split.
      - intros Hm. apply Nat.div_le_lower_bound; lia.
      - intros Hm.
        assert (Hmul : (k * S m <= length s + k - 1 - i)%nat).
        { etrans; [|apply (Nat.Div0.mul_div_le _ k)].
          apply Nat.mul_le_mono_l. lia. }
        lia. }
    pose proof (proj2 (Hiff (length (column s k i)))) as H1.
    pose proof (proj1 (Hiff ((length s + k - 1 - i) / k)%nat)) as H2.
    lia. }
  intros Hi. exists (column s k i). split_and!.
  - by apply splitColumns_lookup.
  - by apply Hlen.
  - intros i' col' Hii' Hcol'.
    assert (Hi' : (i' < k)%nat).
    { apply lookup_lt_Some in Hcol'. by rewrite splitColumns_length in Hcol'. }
    rewrite splitColumns_lookup in Hcol' by done. injection Hcol' as <-.
    rewrite !Hlen by done. split.
    + apply Nat.Div0.div_le_mono. lia.
    + replace (((length s + k - 1 - i') / k + 1)%nat)
        with (((length s + k - 1 - i' + 1 * k) / k)%nat)
        by (rewrite Nat.div_add; lia).
      apply Nat.Div0.div_le_mono. lia.
Qed.

Lemma splitColumns_balanced_witness :
  ∃ col, splitColumns (str "ABCDEFG") 3 !! 1%nat = Some col
         ∧ length col = ((length (str "ABCDEFG") + 3 - 1 - 1) / 3)%nat
         ∧ ∀ i' col', (1 <= i')%nat →
                      splitColumns (str "ABCDEFG") 3 !! i' = Some col' →
                      (length col' <= length col <= length col' + 1)%nat.
Proof. apply (splitColumns_balanced (str "ABCDEFG") 3 1). lia. Defined.

Lemma column_canonical s k i : (i < k)%nat → canonical s → canonical (column s k i).
Proof.
  intros Hi Hs. unfold canonical in *. rewrite Forall_lookup in *.
  intros m c Hc. rewrite column_lookup in Hc by done. by eapply Hs.
Qed.

(** X21. Every column the analysis scores holds A-Z only: the active column
    of the sanitized stream is a stream of A-Z for every text, every [k]
    and every column index, also one past the last column. *)
Theorem activeCol_canonical (up : jsstring → jsstring) (raw : jsstring)
    (k colIndex : nat) :
  canonical (activeCol (splitColumns (normalizeAZ up raw) k) colIndex).
Proof.
  unfold activeCol.
  destruct (decide (colIndex < k)%nat) as [Hi|Hi].
  - rewrite splitColumns_lookup by done. cbn.
    apply column_canonical; [done|apply normalizeAZ_canonical].
  - rewrite lookup_ge_None_2 by (rewrite splitColumns_length; lia).
    apply Forall_nil_2.
Qed.

(** ** Index of coincidence and chi-square under rearrangement *)

(** X22. The index of coincidence of a stream of A-Z depends on its letter
    counts only: two streams with the same letters in another order have the
    same index. *)
Theorem ioc_permutation (s s' : jsstring) :
  canonical s → s ≡ₚ s' → ioc s = ioc s'.
Proof.
  intros Hs Hperm.
  assert (Hs' : canonical s') by (unfold canonical; by rewrite <- Hperm).
  assert (Hrange : ∀ t, canonical t → Forall (λ u, 0 <= u - 65 < 26) t).
  { intros t Ht. eapply Forall_impl; [exact Ht|]. cbn. lia. }
  unfold ioc. rewrite <- (Permutation_length Hperm).
  rewrite !(histogram_cells (λ u, u - 65)) by auto.
  assert (Hcells : (λ i, Some (Z.of_nat (length (filter (λ x, x - 65 = i) s))))
                     <$> seqZ 0 26
                   = (λ i, Some (Z.of_nat (length (filter (λ x, x - 65 = i) s'))))
                       <$> seqZ 0 26).
  { apply list_fmap_ext. intros _ i _. cbn. do 2 f_equal.
    apply Permutation_length. by rewrite Hperm. }
  by rewrite Hcells.
Qed.

Lemma ioc_permutation_witness : ioc (str "ABBA") = ioc (str "AABB").
Proof.
  apply (ioc_permutation (str "ABBA") (str "AABB")).
  - by apply canonical_check.
  - apply (bool_decide_unpack _). by vm_compute.
Defined.

Lemma encode_caesar (t : Z) (col : jsstring) :
  canonical col →
  encode [t] col = (λ c, 65 + (c - 65 + t) mod 26) <$> col.
Proof.
  intros Hcol. unfold encode. generalize 0%nat.
  induction Hcol as [|c col Hc Hcol IH]; intros j; [done|].
  cbn [mapLetters]. rewrite fmap_cons.
  assert (Hl : isLetter c = true) by (apply isLetter_range; lia).
  rewrite Hl, IH. f_equal. unfold encodeLetter. cbn [length].
  rewrite Nat.mod_1_r. cbn.
  unfold isUpperAZ. destruct (Z.leb_spec 65 c), (Z.leb_spec c 90); cbn; lia.
Qed.

Lemma observed_caesar (col : jsstring) (s t i : Z) :
  observed ((λ c, 65 + (c - 65 + t) mod 26) <$> col) ((s + t) mod 26) i
  = observed col s i.
Proof.
  unfold observed. f_equal.
  induction col as [|c col IH]; [done|].
  rewrite fmap_cons, !filter_cons.
  assert (Heq : (65 + (c - 65 + t) mod 26 - 65 - (s + t) mod 26) mod 26
                = (c - 65 - s) mod 26).
  { replace (65 + (c - 65 + t) mod 26 - 65 - (s + t) mod 26)
      with ((c - 65 + t) mod 26 - (s + t) mod 26) by lia.
    rewrite <- Zminus_mod. f_equal. lia. }
  rewrite Heq. case_decide; cbn; by rewrite IH.
Qed.

(** X23. Encrypting a column of A-Z by a Caesar shift [t] moves its
    chi-square profile by [t]: the shifted column scores at shift
    [(s + t) mod 26] what the column scores at [s]. *)
Theorem chiForShift_caesar (col : jsstring) (s t : Z) :
  canonical col → 0 <= s <= 25 →
  chiForShift (encode [t] col) ((s + t) mod 26) = chiForShift col s.
Proof.
  intros Hcol Hs. rewrite encode_caesar by done.
  assert (Hcol' : canonical ((λ c, 65 + (c - 65 + t) mod 26) <$> col)).
  { unfold canonical. apply Forall_fmap, Forall_forall. intros c _. cbn.
    pose proof (Z.mod_pos_bound (c - 65 + t) 26). lia. }
  pose proof (Z.mod_pos_bound (s + t) 26) as Hst.
  unfold chiForShift. rewrite length_fmap.
  rewrite !chiForShift_histogram by (done || lia).
  assert (Hobs : (λ i, Some (observed ((λ c, 65 + (c - 65 + t) mod 26) <$> col)
                               ((s + t) mod 26) i)) <$> seqZ 0 26
                 = (λ i, Some (observed col s i)) <$> seqZ 0 26).
  { apply list_fmap_ext. intros _ i _. cbn. by rewrite observed_caesar. }
  by rewrite Hobs.
Qed.

Lemma chiForShift_caesar_witness :
  chiForShift (encode [3] (str "ATTACK")) ((5 + 3) mod 26)
  = chiForShift (str "ATTACK") 5.
Proof.
  apply (chiForShift_caesar (str "ATTACK") 5 3); [by apply canonical_check|lia].
Defined.

(** ** Range of the best shift and of the working key length *)

Lemma fold_best_elem (l : list ChiDatum) (init : ChiDatum) :
  fold_left (λ best d, if fixed_ltb (cd_chi d) (cd_chi best) then d else best)
    l init ∈ init :: l.
Proof.
  revert init. induction l as [|d l IH]; intros init; [apply list_elem_of_here|].
  cbn [fold_left]. specialize (IH (if fixed_ltb (cd_chi d) (cd_chi init)
                                   then d else init)).
  apply elem_of_cons in IH as [->|IH].
  - destruct (fixed_ltb _ _);
      [apply list_elem_of_further, list_elem_of_here|apply list_elem_of_here].
  - by do 2 apply list_elem_of_further.
Qed.

(** X24. The best shift is a shift in 0..25 for every column, also an empty
    one or one with other characters than A-Z; so [setShiftFor] stores it
    unchanged in a slot of the key state, and the key letter of the slot
    is the letter number [bestShift] of the alphabet. *)
Theorem bestShift_range (col : jsstring) :
  0 <= bestShift col <= 25
  ∧ ∀ (prev : list (option Z)) (index : nat),
      (index < length prev)%nat →
      setShiftFor prev index (bestShift col) !! index = Some (Some (bestShift col))
      ∧ keyString (setShiftFor prev index (bestShift col)) !! index
        = Some (65 + bestShift col).
Proof.
  assert (Hrange : 0 <= bestShift col <= 25).
  { unfold bestShift, bestOf.
    pose proof (fold_best_elem (chiData col)
                  (default {| cd_shift := 0; cd_chi := Fix 1000000000000 |}
                     (head (chiData col)))) as Hin.
    assert (Hhead : head (chiData col)
                    = Some {| cd_shift := 0; cd_chi := chi3 col 0 |}).
    { rewrite head_lookup. by rewrite (chiData_lookup col 0) by lia. }
    rewrite Hhead in *. cbn [default from_option id] in *.
    apply elem_of_cons in Hin as [Hin|Hin].
    - rewrite Hin. cbn. lia.
    - apply chiData_elem in Hin as (s & Hs & ->). done. }
  split; [done|]. intros prev index Hi.
  assert (Hslot : setShiftFor prev index (bestShift col) !! index
                  = Some (Some (bestShift col))).
  { unfold setShiftFor. destruct (Nat.ltb_spec index (length prev)); [|lia].
    rewrite list_lookup_insert_eq by done.
    by rewrite wrap26, Z.mod_small by lia. }
  split; [done|].
  unfold keyString. rewrite list_lookup_fmap, Hslot. cbn.
  unfold fromCharCode. rewrite wrap26, (Z.mod_small (bestShift col)) by lia.
  rewrite Z.mod_small; [done|lia].
Qed.

(** X25. With no pinned value, the working key length of the engine's own
    tables lies in [1, max(1, maxK)], for every stream and every setting:
    the Kasiski candidates are factors in [2, maxK], the sweep's are in
    [1, maxK], and the last resort is 1. *)
Theorem workingK_range (s : jsstring) (n : nat) (pairwise : bool)
    (limitFactors maxK : Z) :
  let w := workingK None
             (kasiskiData (kasiskiVotes (findRepeats s n) pairwise limitFactors) maxK)
             (iocSweep s maxK) in
  1 <= w <= Z.max 1 maxK.
Proof.
  intros w. unfold w, workingK. cbn [jsOr].
  set (kd := sortBy _ (kasiskiData _ _)). set (io := sortBy _ (iocSweep _ _)).
  assert (Hk1 : ∀ d, head kd = Some d → 2 <= kd_k d <= maxK).
  { intros d Hd. apply head_Some_elem_of in Hd. unfold kd in Hd.
    rewrite sortBy_perm in Hd. apply kasiskiData_elem in Hd as [Hv Hle].
    apply kasiskiVotes_keys in Hv. lia. }
  assert (Hk2 : ∀ a, head io = Some a → 1 <= io_k a <= maxK).
  { intros a Ha. apply head_Some_elem_of in Ha. unfold io in Ha.
    rewrite sortBy_perm in Ha. unfold iocSweep in Ha.
    apply list_elem_of_fmap in Ha as (k & -> & Hk). cbn.
    apply elem_of_seqZ in Hk. lia. }
  destruct (head kd) as [d|].
  - specialize (Hk1 d eq_refl). cbn [fmap option_fmap option_map].
    rewrite (jsOr_nonzero (kd_k d)) by lia.
    rewrite (jsOr_nonzero (kd_k d)) by lia. cbn. lia.
  - cbn [fmap option_fmap option_map jsOr].
    destruct (head io) as [a|].
    + specialize (Hk2 a eq_refl). cbn [fmap option_fmap option_map].
      rewrite (jsOr_nonzero (io_k a)) by lia. cbn. lia.
    + cbn. lia.
Qed.

(** ** Highlighting *)

Lemma slice_full (text gram : jsstring) (i : nat) :
  slice text i (length gram) = gram →
  drop i text = gram ++ drop (i + length gram) text.
Proof.
  unfold slice. intros Hchunk.
  rewrite <- (take_drop (length gram) (drop i text)) at 1.
  by rewrite Hchunk, drop_drop.
Qed.

Lemma slice_one (text : jsstring) (i : nat) :
  drop i text = slice text i 1 ++ drop (i + 1) text.
Proof.
  unfold slice. rewrite <- (take_drop 1 (drop i text)) at 1.
  by rewrite drop_drop.
Qed.

Lemma highlightLoop_concat (fuel : nat) (text gram : jsstring) (i : nat) :
  gram ≠ [] → (length text <= i + fuel)%nat →
  concat (seg_text <$> highlightLoop fuel text gram i) = drop i text.
Proof.
  intros Hne. revert i. induction fuel as [|fuel IH]; intros i Hfuel.
  - cbn. by rewrite drop_ge by lia.
  - cbn [highlightLoop]. destruct (Nat.ltb_spec i (length text)) as [Hi|Hi].
    + assert (Hn : (1 <= length gram)%nat)
        by (destruct gram; [done|cbn; lia]).
      destruct (decide (slice text i (length gram) = gram)) as [Hchunk|Hchunk].
      * rewrite fmap_cons. cbn [concat seg_text].
        rewrite IH by lia. rewrite Hchunk. symmetry. by apply slice_full.
      * rewrite fmap_cons. cbn [concat seg_text].
        rewrite IH by lia. symmetry. apply slice_one.
    + cbn. by rewrite drop_ge by lia.
Qed.

Lemma highlightLoop_segments (fuel : nat) (text gram : jsstring) (i : nat) :
  Forall (λ seg, ∃ p, seg_key seg = Some p ∧ (i <= p < length text)%nat
                      ∧ if seg_mark seg
                        then seg_text seg = gram ∧ slice text p (length gram) = gram
                        else seg_text seg = slice text p 1
                             ∧ length (seg_text seg) = 1%nat
                             ∧ slice text p (length gram) ≠ gram)
    (highlightLoop fuel text gram i).
Proof.
  revert i. induction fuel as [|fuel IH]; intros i; [apply Forall_nil_2|].
  cbn [highlightLoop]. destruct (Nat.ltb_spec i (length text)) as [Hi|Hi];
    [|apply Forall_nil_2].
  assert (Hmono : ∀ i', (i <= i')%nat →
            Forall (λ seg, ∃ p, seg_key seg = Some p ∧ (i <= p < length text)%nat
                      ∧ if seg_mark seg
                        then seg_text seg = gram ∧ slice text p (length gram) = gram
                        else seg_text seg = slice text p 1
                             ∧ length (seg_text seg) = 1%nat
                             ∧ slice text p (length gram) ≠ gram)
              (highlightLoop fuel text gram i')).
  { intros i' Hii'. eapply Forall_impl; [apply (IH i')|].
    intros seg (p & Hkey & Hp & Hseg). exists p. split_and!; [done|lia|lia|done]. }
  destruct (decide (slice text i (length gram) = gram)) as [Hchunk|Hchunk].
  - apply Forall_cons_2; [|apply Hmono; lia].
    exists i. cbn. split_and!; [done|lia|lia|by rewrite Hchunk|done].
  - apply Forall_cons_2; [|apply Hmono; lia].
    exists i. cbn. split_and!; [done|lia|lia|done| |done].
    unfold slice. rewrite length_take, length_drop. lia.
Qed.

Lemma highlightLoop_keys (fuel : nat) (text gram : jsstring) (i : nat) :
  gram ≠ [] →
  StronglySorted (λ a b, ∃ p q, seg_key a = Some p ∧ seg_key b = Some q
                                ∧ (p < q)%nat)
    (highlightLoop fuel text gram i).
Proof.
  intros Hne. revert i. induction fuel as [|fuel IH]; intros i; [constructor|].
  cbn [highlightLoop]. destruct (Nat.ltb_spec i (length text)) as [Hi|Hi];
    [|constructor].
  assert (Hn : (1 <= length gram)%nat) by (destruct gram; [done|cbn; lia]).
  assert (Hafter : ∀ i', (i < i')%nat →
            Forall (λ b, ∃ p q, Some i = Some p ∧ seg_key b = Some q ∧ (p < q)%nat)
              (highlightLoop fuel text gram i')).
  { intros i' Hii'. eapply Forall_impl; [apply (highlightLoop_segments _ _ _ i')|].
    intros seg (q & Hkey & Hq & _). exists i, q. split_and!; [done|done|lia]. }
  destruct (decide (slice text i (length gram) = gram)).
  - constructor; [apply IH|]. cbn [seg_key]. apply Hafter. lia.
  - constructor; [apply IH|]. cbn [seg_key]. apply Hafter. lia.
Qed.

(** X26. The elements that [highlightOccurrences] returns cover the text:
    their texts put together are the text again. For a non-empty gram every
    element carries its start offset as key, the keys increase strictly, a
    [mark] holds the gram and stands where the gram occurs, and a [span]
    holds the one character of an offset at which the gram does not start. *)
Theorem highlightOccurrences_covers (text gram : jsstring) :
  concat (seg_text <$> highlightOccurrences text gram) = text
  ∧ (gram ≠ [] →
     Forall (λ seg, ∃ p, seg_key seg = Some p ∧ (p < length text)%nat
                         ∧ if seg_mark seg
                           then seg_text seg = gram
                                ∧ slice text p (length gram) = gram
                           else seg_text seg = slice text p 1
                                ∧ length (seg_text seg) = 1%nat
                                ∧ slice text p (length gram) ≠ gram)
       (highlightOccurrences text gram)
     ∧ StronglySorted (λ a b, ∃ p q, seg_key a = Some p ∧ seg_key b = Some q
                                     ∧ (p < q)%nat)
         (highlightOccurrences text gram)).
Proof.
  unfold highlightOccurrences. case_bool_decide as Hgram.
  - split; [cbn; by rewrite app_nil_r|done].
  - split; [by rewrite highlightLoop_concat by (done || lia)|].
    intros _. split; [|by apply highlightLoop_keys].
    eapply Forall_impl; [apply (highlightLoop_segments _ _ _ 0)|].
    intros seg (p & Hkey & Hp & Hseg). exists p. split_and!; [done|lia|done].
Qed.

(** ** The chart data and the frame of a slot *)

(** X27. The Kasiski chart data of any repeat table is in strictly
    increasing order of [k]; every bar has [k] in [2, min(limitFactors, maxK)]
    and at least one vote, at most one per distance. *)
Theorem kasiskiData_bars (repeats : list NGramOccurrence) (pairwise : bool)
    (limitFactors maxK : Z) :
  let data := kasiskiData (kasiskiVotes repeats pairwise limitFactors) maxK in
  StronglySorted (λ a b, kd_k a < kd_k b) data
  ∧ Forall (λ d, 2 <= kd_k d <= Z.min limitFactors maxK
                 ∧ 1 <= kd_votes d
                        <= Z.of_nat (length (repeatDistances repeats pairwise)))
      data.
Proof.
  intros data. split; [apply kasiskiData_sorted|].
  apply Forall_forall. intros d Hd. unfold data in Hd.
  apply kasiskiData_elem in Hd as [Hv Hle].
  pose proof (kasiskiVotes_keys _ _ _ _ _ Hv) as Hk.
  rewrite kasiskiVotes_lookup in Hv.
  case_decide as Hc; [done|]. injection Hv as Hv. rewrite <- Hv.
  pose proof (length_filter
                (λ d0, 2 <= kd_k d <= Z.min limitFactors d0 ∧ d0 mod kd_k d = 0)
                (repeatDistances repeats pairwise)) as Hlen.
  unfold voteCount in *. lia.
Qed.

(** X28. Setting the shift of one column leaves the preview of every other
    column alone: a position of the text whose letter count modulo [k] is
    not the slot's index decodes as before. *)
Theorem setShiftFor_frame (raw : jsstring) (prev : list (option Z))
    (index : nat) (value k : Z) (p : nat) :
  (index < length prev)%nat → 0 < k →
  (letterIndex raw p mod Z.to_nat k)%nat ≠ index →
  decodePartial raw (setShiftFor prev index value) k !! p
  = decodePartial raw prev k !! p.
Proof.
  intros Hi Hk Hcol. rewrite !decodePartial_units by done.
  rewrite !mapLetters_lookup. destruct (raw !! p) as [c|]; [|done]. cbn.
  destruct (isLetter c); [|done]. f_equal. unfold decodeLetter, setShiftFor.
  destruct (Nat.ltb_spec index (length prev)); [|lia].
  by rewrite list_lookup_insert_ne by done.
Qed.

Lemma setShiftFor_frame_witness :
  decodePartial (str "Hi, you!") (setShiftFor [Some 3; None] 1 7) 2 !! 0%nat
  = decodePartial (str "Hi, you!") [Some 3; None] 2 !! 0%nat.
Proof.
  apply (setShiftFor_frame (str "Hi, you!") [Some 3; None] 1 7 2 0);
    [cbn; lia|lia|by vm_compute].
Defined.
